(** * Avatar-Talk: the audio-time-driven viseme lip-sync engine

    A shallow embedding of the lip-sync utilities ([getVisemeAtTime],
    [FrameInterpolator], [getFrameForViseme]) and of the playback effect of
    [AvatarModule] ([scaleVisemes], the per-frame [animate] resolution, the
    overlapping-playback guard), with the properties of the specification
    stated and settled over it.

    JavaScript numbers are modelled as exact rationals extended with the
    three IEEE special values [+Infinity], [-Infinity] and [NaN].  Rounding
    error, overflow and the sign of zero are not modelled. *)

From Stdlib Require Import QArith Qabs Qround Lqa Lia ZArith.
From stdpp Require Import gmap strings list fin_maps.

Local Open Scope Z_scope.

(** ** JavaScript numbers *)

Inductive num : Type :=
  | Fin (q : Q)
  | PInf
  | NInf
  | NaN.

Module Num.

Definition of_Z (z : Z) : num := Fin (inject_Z z).

Definition zero : num := Fin 0.
Definition one : num := Fin 1.

Definition Qltb (a b : Q) : bool := negb (Qle_bool b a).

(** Sign of a finite number: [Gt] positive, [Lt] negative, [Eq] zero. *)
Definition Qsign (q : Q) : comparison := (q ?= 0)%Q.

(** [ToBoolean]: zero and [NaN] are falsy, every other number is truthy. *)
Definition truthy (n : num) : bool :=
  match n with
  | Fin q => negb (Qeq_bool q 0)
  | PInf | NInf => true
  | NaN => false
  end.

Definition neg (n : num) : num :=
  match n with
  | Fin q => Fin (- q)
  | PInf => NInf
  | NInf => PInf
  | NaN => NaN
  end.

Definition add (a b : num) : num :=
  match a, b with
  | NaN, _ | _, NaN => NaN
  | PInf, NInf | NInf, PInf => NaN
  | PInf, _ | _, PInf => PInf
  | NInf, _ | _, NInf => NInf
  | Fin x, Fin y => Fin (x + y)
  end.

Definition sub (a b : num) : num := add a (neg b).

(** The infinity carrying the sign [c] ([NaN] for a zero factor). *)
Definition inf_of_sign (c : comparison) : num :=
  match c with
  | Gt => PInf
  | Lt => NInf
  | Eq => NaN
  end.

Definition mul (a b : num) : num :=
  match a, b with
  | NaN, _ | _, NaN => NaN
  | Fin x, Fin y => Fin (x * y)
  | PInf, PInf | NInf, NInf => PInf
  | PInf, NInf | NInf, PInf => NInf
  | PInf, Fin y | Fin y, PInf => inf_of_sign (Qsign y)
  | NInf, Fin y | Fin y, NInf => neg (inf_of_sign (Qsign y))
  end.

(** Division; a zero divisor is taken as [+0]. *)
Definition div (a b : num) : num :=
  match a, b with
  | NaN, _ | _, NaN => NaN
  | (PInf | NInf), (PInf | NInf) => NaN
  | Fin _, (PInf | NInf) => Fin 0
  | PInf, Fin y => match Qsign y with Lt => NInf | _ => PInf end
  | NInf, Fin y => match Qsign y with Lt => PInf | _ => NInf end
  | Fin x, Fin y =>
      if Qeq_bool y 0 then inf_of_sign (Qsign x) else Fin (x / y)
  end.

(** [a < b]; false as soon as one side is [NaN]. *)
Definition lt (a b : num) : bool :=
  match a, b with
  | NaN, _ | _, NaN => false
  | _, NInf => false
  | NInf, _ => true
  | PInf, _ => false
  | _, PInf => true
  | Fin x, Fin y => Qltb x y
  end.

(** [a <= b]; false as soon as one side is [NaN]. *)
Definition le (a b : num) : bool :=
  match a, b with
  | NaN, _ | _, NaN => false
  | NInf, _ => true
  | _, PInf => true
  | _, NInf => false
  | PInf, _ => false
  | Fin x, Fin y => Qle_bool x y
  end.

Definition gt (a b : num) : bool := lt b a.
Definition ge (a b : num) : bool := le b a.

(** [a === b] on numbers: numeric equality, [NaN] differs from itself. *)
Definition eqb (a b : num) : bool :=
  match a, b with
  | Fin x, Fin y => Qeq_bool x y
  | PInf, PInf | NInf, NInf => true
  | _, _ => false
  end.

Definition abs (n : num) : num :=
  match n with
  | Fin q => Fin (Qabs q)
  | PInf | NInf => PInf
  | NaN => NaN
  end.

(** [Math.min(a, b)]. *)
Definition min (a b : num) : num :=
  match a, b with
  | NaN, _ | _, NaN => NaN
  | _, _ => if lt b a then b else a
  end.

(** [Math.floor]. *)
Definition floor (n : num) : num :=
  match n with
  | Fin q => of_Z (Qfloor q)
  | _ => n
  end.

(** [Math.round]: the nearest integer, ties towards [+Infinity]. *)
Definition round (n : num) : num :=
  match n with
  | Fin q => of_Z (Qfloor (q + (1 # 2)))
  | _ => n
  end.

(** [Math.pow(a, 2)]. *)
Definition sq (a : num) : num := mul a a.

(** [ToNumber] of a possibly missing value: [undefined] becomes [NaN]. *)
Definition to_num (o : option num) : num :=
  match o with
  | Some n => n
  | None => NaN
  end.

(** [o || d] for a possibly missing number [o] and a number [d]. *)
Definition or_else (o : option num) (d : num) : num :=
  match o with
  | Some n => if truthy n then n else d
  | None => d
  end.

End Num.

Declare Scope num_scope.
Delimit Scope num_scope with num.
Bind Scope num_scope with num.
Notation "a + b" := (Num.add a b) : num_scope.
Notation "a - b" := (Num.sub a b) : num_scope.
Notation "a * b" := (Num.mul a b) : num_scope.
Notation "a / b" := (Num.div a b) : num_scope.
Notation "a <? b" := (Num.lt a b) : num_scope.
Notation "a <=? b" := (Num.le a b) : num_scope.
Notation "a >? b" := (Num.gt a b) : num_scope.
Notation "a >=? b" := (Num.ge a b) : num_scope.
Notation "a =? b" := (Num.eqb a b) : num_scope.
Notation "a || d" := (Num.or_else a d) : num_scope.

Abbreviation zero := Num.zero.
Abbreviation one := Num.one.

(** ** Viseme events

    A viseme event is a plain JavaScript object; a field that is missing
    reads as [undefined].  The fields the code reads are [viseme], [start],
    [duration] and [end]. *)

Abbreviation event := (gmap string num).

Definition mk_event (viseme start duration : Q) : event :=
  <["viseme" := Fin viseme]> (<["start" := Fin start]> (<["duration" := Fin duration]> ∅)).

(** ** lipsyncUtils: [getVisemeAtTime] *)

(** The outcome of running one of the two search loops. *)
Inductive search : Type :=
  | Found (category : num)   (* the loop returned from the function *)
  | Missed                   (* the loop ran to its end *)
  | TypeError                (* a property of [undefined] was read *)
  | OutOfFuel.

(** The values [start] and [end] that both loops compute for an event. *)
Definition loop_start (v : event) : num := (v !! "start" || zero)%num.
Definition loop_end (v : event) : num :=
  (v !! "end" || (loop_start v + (v !! "duration" || zero)))%num.

(** [audioTime >= start && audioTime < end]. *)
Definition in_interval (audioTime : num) (v : event) : bool :=
  (audioTime >=? loop_start v)%num && (audioTime <? loop_end v)%num.

(** The [for] loop of the branch [visemeSequence.length < 50]. *)
Fixpoint linear_loop (audioTime : num) (vs : list event) : search :=
  match vs with
  | [] => Missed
  | v :: rest =>
      if in_interval audioTime v then Found (v !! "viseme" || zero)%num
      else linear_loop audioTime rest
  end.

(** The [while (left <= right)] loop of the other branch. *)
Fixpoint binary_loop (fuel : nat) (audioTime : num) (vs : list event)
    (left right : Z) : search :=
  match fuel with
  | O => if left <=? right then OutOfFuel else Missed
  | S fuel' =>
      if left <=? right then
        let mid := (left + right) / 2 in
        match (if 0 <=? mid then vs !! Z.to_nat mid else None) with
        | None => TypeError
        | Some v =>
            if in_interval audioTime v then Found (v !! "viseme" || zero)%num
            else if (audioTime <? loop_start v)%num
                 then binary_loop fuel' audioTime vs left (mid - 1)
                 else binary_loop fuel' audioTime vs (mid + 1) right
        end
      else Missed
  end.

(** The code after the loops: the last viseme while [audioTime] is before
    its end, silence otherwise.  Here [lastViseme.start] is read without a
    default. *)
Definition past_end (audioTime : num) (vs : list event) : search :=
  match last vs with
  | None => TypeError
  | Some lastViseme =>
      let lastEnd :=
        (lastViseme !! "end"
         || (Num.to_num (lastViseme !! "start") + (lastViseme !! "duration" || zero)))%num in
      Found (if (audioTime <? lastEnd)%num then (lastViseme !! "viseme" || zero)%num else zero)
  end.

Definition or_past_end (r : search) (audioTime : num) (vs : list event) : search :=
  match r with
  | Missed => past_end audioTime vs
  | _ => r
  end.

(** The two search strategies, each followed by the code after the loops. *)
Definition lookup_linear (audioTime : num) (vs : list event) : search :=
  or_past_end (linear_loop audioTime vs) audioTime vs.

Definition lookup_binary (audioTime : num) (vs : list event) : search :=
  or_past_end
    (binary_loop (length vs) audioTime vs 0 (Z.of_nat (length vs) - 1))
    audioTime vs.

(** [getVisemeAtTime(audioTime, visemeSequence)]; [None] is an absent
    ([null] or [undefined]) sequence. *)
Definition getVisemeAtTime (audioTime : num) (visemeSequence : option (list event)) : search :=
  match visemeSequence with
  | None | Some [] => Found zero
  | Some vs =>
      if (length vs <? 50)%nat
      then lookup_linear audioTime vs
      else lookup_binary audioTime vs
  end.

(** ** lipsyncUtils: [FrameInterpolator] *)

Record FrameInterpolator : Type := {
  transitionDuration : num;
  currentFrame : num;
  targetFrame : num;
  transitionStartTime : num;
  isTransitioning : bool;
}.

(** [new FrameInterpolator(transitionDuration)]. *)
Definition new_FrameInterpolator (transitionDuration : num) : FrameInterpolator :=
  {| transitionDuration := transitionDuration;
     currentFrame := one;
     targetFrame := one;
     transitionStartTime := zero;
     isTransitioning := false |}.

Definition default_transitionDuration : num := Fin (5 # 100).

Definition setTargetFrame (frame currentTime : num) (this : FrameInterpolator)
    : FrameInterpolator :=
  if negb (frame =? targetFrame this)%num then
    {| transitionDuration := transitionDuration this;
       currentFrame := targetFrame this;
       targetFrame := frame;
       transitionStartTime := currentTime;
       isTransitioning := true |}
  else this.

(** The ease-in-out curve applied to [progress]. *)
Definition ease (progress : num) : num :=
  if (progress <? Fin (1 # 2))%num
  then (Num.of_Z 2 * progress * progress)%num
  else (one - Num.sq (Num.of_Z (-2) * progress + Num.of_Z 2) / Num.of_Z 2)%num.

(** [getInterpolatedFrame(currentTime)]: the frame returned and the state
    the call leaves behind. *)
Definition getInterpolatedFrame (currentTime : num) (this : FrameInterpolator)
    : num * FrameInterpolator :=
  if negb (isTransitioning this) then (targetFrame this, this)
  else
    let elapsed := (currentTime - transitionStartTime this)%num in
    let progress := Num.min (elapsed / transitionDuration this)%num one in
    if (progress >=? one)%num then
      (targetFrame this,
       {| transitionDuration := transitionDuration this;
          currentFrame := targetFrame this;
          targetFrame := targetFrame this;
          transitionStartTime := transitionStartTime this;
          isTransitioning := false |})
    else
      let eased := ease progress in
      let interpolated :=
        Num.round (currentFrame this
                   + (targetFrame this - currentFrame this) * eased)%num in
      (interpolated, this).

Definition reset (this : FrameInterpolator) : FrameInterpolator :=
  {| transitionDuration := transitionDuration this;
     currentFrame := targetFrame this;
     targetFrame := targetFrame this;
     transitionStartTime := zero;
     isTransitioning := false |}.

(** ** lipsyncUtils: [getFrameForViseme] *)

(** [visemeFrameMap[visemeIndex] || visemeFrameMap[0] || [1]]: an array,
    even an empty one, is truthy; only a missing entry falls through. *)
Definition candidateFrames (visemeIndex : Z) (visemeFrameMap : gmap Z (list Z)) : list Z :=
  match visemeFrameMap !! visemeIndex with
  | Some frames => frames
  | None =>
      match visemeFrameMap !! 0 with
      | Some frames => frames
      | None => [1]
      end
  end.

(** [v.viseme === visemeIndex]; a missing field equals no number. *)
Definition viseme_is (v : event) (visemeIndex : Z) : bool :=
  match v !! "viseme" with
  | Some n => (n =? Num.of_Z visemeIndex)%num
  | None => false
  end.

(** The callback handed to [visemeSequence.find]. *)
Definition find_pred (audioTime : num) (visemeIndex : Z) (v : event) : bool :=
  in_interval audioTime v && viseme_is v visemeIndex.

Definition find_visemeData (audioTime : num) (visemeIndex : Z) (visemeSequence : list event)
    : option event :=
  List.find (find_pred audioTime visemeIndex) visemeSequence.

(** [Math.floor(x) % n] as an array index; [None] when the remainder is
    [NaN] or negative, where indexing yields [undefined]. *)
Definition cycle_index (x : num) (n : nat) : option nat :=
  match Num.floor x with
  | Fin q =>
      let r := Z.rem (Qfloor q) (Z.of_nat n) in
      if r <? 0 then None else Some (Z.to_nat r)
  | _ => None
  end.

(** [getFrameForViseme]; [None] is the value [undefined]. *)
Definition getFrameForViseme (visemeIndex : Z) (visemeSequence : list event)
    (audioTime : num) (visemeFrameMap : gmap Z (list Z)) : option Z :=
  let candidates := candidateFrames visemeIndex visemeFrameMap in
  if (length candidates =? 0)%nat then Some 1
  else
    match find_visemeData audioTime visemeIndex visemeSequence with
    | Some visemeData =>
        if Num.truthy (Num.to_num (visemeData !! "duration")) then
          let timeInViseme := (audioTime - (visemeData !! "start" || zero))%num in
          let cycleRate := Num.of_Z 8 in
          match cycle_index (timeInViseme * cycleRate)%num (length candidates) with
          | Some frameIndex => candidates !! frameIndex
          | None => None
          end
        else candidates !! 0%nat
    | None => candidates !! 0%nat
    end.

(** ** AvatarModule: the objects of one utterance

    The viseme events of an utterance are objects of a store; an array of
    events is the list of their addresses.  [visemeData.map(...)] allocates
    a fresh object for each element and leaves the ones it reads alone. *)

Abbreviation loc := nat.
Abbreviation store := (gmap loc event).

(** The variables the closures [scaleVisemes] and [animate] share. *)
Record lipsync : Type := {
  visemeData : list loc;
  estimatedDuration : num;
  durationScale : num;
  scaledVisemes : list loc;
}.

(** [{...viseme, start: (viseme.start || 0) * durationScale,
      duration: (viseme.duration || 0) * durationScale}]. *)
Definition scale_event (durationScale : num) (viseme : event) : event :=
  <["duration" := ((viseme !! "duration" || zero) * durationScale)%num]>
    (<["start" := ((viseme !! "start" || zero) * durationScale)%num]> viseme).

Definition alloc (h : store) (v : event) : loc * store :=
  let l := fresh (dom h) in (l, <[l := v]> h).

(** [array.map(f)] over an array of objects; [None] when an element is not
    an object of the store. *)
Fixpoint map_alloc (f : event -> event) (array : list loc) (h : store)
    : option (list loc * store) :=
  match array with
  | [] => Some ([], h)
  | l :: rest =>
      match h !! l with
      | None => None
      | Some v =>
          let '(l', h') := alloc h (f v) in
          match map_alloc f rest h' with
          | Some (ls, h'') => Some (l' :: ls, h'')
          | None => None
          end
      end
  end.

(** The events an array holds, read through the store. *)
Definition deref (h : store) (array : list loc) : option (list event) :=
  mapM (fun l => h !! l) array.

(** The estimate taken from the last event when the effect starts. *)
Definition estimate_duration (h : store) (visemeData : list loc) : num :=
  match last visemeData with
  | Some l =>
      match h !! l with
      | Some lastViseme =>
          ((lastViseme !! "start" || zero) + (lastViseme !! "duration" || zero))%num
      | None => zero
      end
  | None => zero
  end.

Definition init_lipsync (h : store) (visemeData : list loc) : lipsync :=
  {| visemeData := visemeData;
     estimatedDuration := estimate_duration h visemeData;
     durationScale := one;
     scaledVisemes := visemeData |}.

(** [scaleVisemes(actualDuration)]. *)
Definition scaleVisemes (actualDuration : num) (h : store) (c : lipsync)
    : option (store * lipsync) :=
  if (estimatedDuration c >? zero)%num && (actualDuration >? zero)%num then
    let scale := (actualDuration / estimatedDuration c)%num in
    match map_alloc (scale_event scale) (visemeData c) h with
    | Some (ls, h') =>
        Some (h', {| visemeData := visemeData c;
                     estimatedDuration := estimatedDuration c;
                     durationScale := scale;
                     scaledVisemes := ls |})
    | None => None
    end
  else
    Some (h, {| visemeData := visemeData c;
                estimatedDuration := estimatedDuration c;
                durationScale := durationScale c;
                scaledVisemes := visemeData c |}).

(** ** AvatarModule: the viseme resolved on an animation tick *)

(** The first loop of [animate]: the interval of an event runs from
    [start] to [start + duration]. *)
Definition animate_in_range (elapsed : num) (viseme : event) : bool :=
  let visemeStart := (viseme !! "start" || zero)%num in
  let visemeDuration := (viseme !! "duration" || zero)%num in
  let visemeEnd := (visemeStart + visemeDuration)%num in
  (elapsed >=? visemeStart)%num && (elapsed <? visemeEnd)%num.

Fixpoint animate_scan (elapsed : num) (scaled : list event) : option num :=
  match scaled with
  | [] => None
  | viseme :: rest =>
      if animate_in_range elapsed viseme then Some (viseme !! "viseme" || zero)%num
      else animate_scan elapsed rest
  end.

Definition start_distance (elapsed : num) (viseme : event) : num :=
  Num.abs (elapsed - (viseme !! "start" || zero))%num.

(** One round of the second loop: keep the closer of the two. *)
Definition closer (elapsed : num) (best : event * num) (viseme : event) : event * num :=
  let distance := start_distance elapsed viseme in
  if (distance <? snd best)%num then (viseme, distance) else best.

Definition closest (elapsed : num) (scaled : list event) : option (event * num) :=
  match scaled with
  | [] => None
  | first :: rest =>
      Some (fold_left (closer elapsed) rest (first, start_distance elapsed first))
  end.

Definition fallback_window : num := Fin (2 # 10).

(** [currentViseme] and [foundViseme] as they stand before the tick
    publishes the viseme. *)
Definition resolve_viseme (elapsed : num) (scaled : list event) : num * bool :=
  match animate_scan elapsed scaled with
  | Some category => (category, true)
  | None =>
      match closest elapsed scaled with
      | Some (closestViseme, minDistance) =>
          if (minDistance <? fallback_window)%num
          then ((closestViseme !! "viseme" || zero)%num, true)
          else (zero, false)
      | None => (zero, false)
      end
  end.

(** ** AvatarModule: the playback session

    The refs and state of the component, and every [Audio] element the
    effect has created.  The handlers and timers the effect registers are
    the actions of a transition system; an action may fire at any time,
    which covers every schedule the browser can produce. *)

Record audio : Type := {
  paused : bool;
  ended : bool;
  currentTime : num;
  duration : num;
  src : string;
}.

Record session : Type := {
  audioRef : option loc;
  animationRef : option nat;
  isPlayingRef : bool;
  visemeIndex : num;
  progress : num;
  audioTime : num;
  audioDuration : num;
  isSpeaking : bool;
  audios : gmap loc audio;
  nextFrameRequest : nat;
}.

Record speech : Type := {
  audioData : option string;
  speechVisemes : option (list event);
}.

Definition initial_session : session :=
  {| audioRef := None; animationRef := None; isPlayingRef := false;
     visemeIndex := zero; progress := zero; audioTime := zero;
     audioDuration := zero; isSpeaking := false; audios := ∅;
     nextFrameRequest := 1 |}.

Definition set_audios (f : gmap loc audio -> gmap loc audio) (s : session) : session :=
  {| audioRef := audioRef s; animationRef := animationRef s;
     isPlayingRef := isPlayingRef s; visemeIndex := visemeIndex s;
     progress := progress s; audioTime := audioTime s;
     audioDuration := audioDuration s; isSpeaking := isSpeaking s;
     audios := f (audios s); nextFrameRequest := nextFrameRequest s |}.

(** [pause(); currentTime = 0; src = ''; load()] on one element. *)
Definition unload (a : audio) : audio :=
  {| paused := true; ended := false; currentTime := zero;
     duration := NaN; src := "" |}.

(** [new Audio(src)]. *)
Definition new_Audio (src : string) : audio :=
  {| paused := true; ended := false; currentTime := zero;
     duration := NaN; src := src |}.

(** "Stop any existing playback": both [if] blocks that the effect and its
    cleanup share. *)
Definition stop_playback (s : session) : session :=
  let s1 :=
    match audioRef s with
    | Some a =>
        {| audioRef := None; animationRef := animationRef s;
           isPlayingRef := isPlayingRef s; visemeIndex := visemeIndex s;
           progress := progress s; audioTime := audioTime s;
           audioDuration := audioDuration s; isSpeaking := isSpeaking s;
           audios := alter unload a (audios s);
           nextFrameRequest := nextFrameRequest s |}
    | None => s
    end in
  match animationRef s1 with
  | Some _ =>
      {| audioRef := audioRef s1; animationRef := None;
         isPlayingRef := isPlayingRef s1; visemeIndex := visemeIndex s1;
         progress := progress s1; audioTime := audioTime s1;
         audioDuration := audioDuration s1; isSpeaking := isSpeaking s1;
         audios := audios s1; nextFrameRequest := nextFrameRequest s1 |}
  | None => s1
  end.

Definition falsy_string (o : option string) : bool :=
  match o with
  | None => true
  | Some str => if decide (str = "") then true else false
  end.

(** The body of the effect on [currentSpeech]: the session it leaves and
    whether it returned a cleanup function. *)
Definition speechEffect (currentSpeech : option speech) (s : session) : session * bool :=
  match currentSpeech with
  | None => (s, false)
  | Some sp =>
      if isPlayingRef s then (s, false)
      else if falsy_string (audioData sp) then (s, false)
      else
        let s1 := stop_playback s in
        let a := fresh (dom (audios s1)) in
        let url := ("data:audio/mp3;base64," ++ default "" (audioData sp))%string in
        ({| audioRef := Some a; animationRef := animationRef s1;
            isPlayingRef := isPlayingRef s1; visemeIndex := visemeIndex s1;
            progress := progress s1; audioTime := audioTime s1;
            audioDuration := audioDuration s1; isSpeaking := isSpeaking s1;
            audios := <[a := new_Audio url]> (audios s1);
            nextFrameRequest := nextFrameRequest s1 |}, true)
  end.

(** The function the effect returns. *)
Definition cleanup (s : session) : session :=
  let s1 := stop_playback s in
  {| audioRef := audioRef s1; animationRef := animationRef s1;
     isPlayingRef := false; visemeIndex := zero;
     progress := progress s1; audioTime := zero;
     audioDuration := zero; isSpeaking := false;
     audios := audios s1; nextFrameRequest := nextFrameRequest s1 |}.

(** [useEffect(effect, [currentSpeech, updateSpeakingState])] when
    [currentSpeech] has changed: the cleanup the previous run of the
    effect returned, if it returned one, then the effect. *)
Definition speech_changed (currentSpeech : option speech) (registered : bool)
    (s : session) : session * bool :=
  speechEffect currentSpeech (if registered then cleanup s else s).

(** The state both [onerror] and a rejected [play()] leave. *)
Definition playback_failed (s : session) : session :=
  {| audioRef := audioRef s; animationRef := animationRef s;
     isPlayingRef := false; visemeIndex := visemeIndex s;
     progress := progress s; audioTime := audioTime s;
     audioDuration := audioDuration s; isSpeaking := false;
     audios := audios s; nextFrameRequest := nextFrameRequest s |}.

(** [requestAnimationFrame(animate)] stored in [animationRef]. *)
Definition request_frame (s : session) : session :=
  {| audioRef := audioRef s; animationRef := Some (nextFrameRequest s);
     isPlayingRef := isPlayingRef s; visemeIndex := visemeIndex s;
     progress := progress s; audioTime := audioTime s;
     audioDuration := audioDuration s; isSpeaking := isSpeaking s;
     audios := audios s; nextFrameRequest := S (nextFrameRequest s) |}.

(** One run of [animate] for a closure whose [scaledVisemes] hold the
    events [scaled] and whose [lastVisemeIndex] is [lastVisemeIndex]. *)
Definition animate (scaled : list event) (lastVisemeIndex : num) (s : session) : session :=
  match audioRef s with
  | None => s
  | Some a =>
      match audios s !! a with
      | None => s
      | Some au =>
          let currentViseme := fst (resolve_viseme (currentTime au) scaled) in
          let published :=
            if negb (currentViseme =? lastVisemeIndex)%num then currentViseme
            else visemeIndex s in
          let s1 :=
            {| audioRef := audioRef s; animationRef := animationRef s;
               isPlayingRef := isPlayingRef s; visemeIndex := published;
               progress := (currentTime au / duration au * Num.of_Z 100)%num;
               audioTime := currentTime au;
               audioDuration := duration au; isSpeaking := isSpeaking s;
               audios := audios s; nextFrameRequest := nextFrameRequest s |} in
          if negb (paused au) && negb (ended au) then request_frame s1
          else
            {| audioRef := audioRef s1; animationRef := animationRef s1;
               isPlayingRef := false; visemeIndex := zero;
               progress := zero; audioTime := zero;
               audioDuration := audioDuration s1; isSpeaking := false;
               audios := audios s1; nextFrameRequest := nextFrameRequest s1 |}
      end
  end.

Inductive action : Type :=
  | RunEffect (currentSpeech : option speech)
  | RunCleanup
  | PlayTimer (a : loc)          (* the timer that calls [audio.play()] *)
  | PlayRejected (a : loc)       (* the [catch] of [audio.play()] *)
  | OnLoadedMetadata (a : loc) (d : num)
  | OnPlay (a : loc)
  | OnEnded (a : loc)
  | OnError (a : loc)
  | Advance (a : loc) (t : num)  (* the clock of a playing element moves *)
  | StartAnimation
  | Animate (scaled : list event) (lastVisemeIndex : num).

Definition start_playing (a : audio) : audio :=
  {| paused := false; ended := ended a; currentTime := currentTime a;
     duration := duration a; src := src a |}.

Definition finish (a : audio) : audio :=
  {| paused := paused a; ended := true; currentTime := currentTime a;
     duration := duration a; src := src a |}.

Definition set_duration (d : num) (a : audio) : audio :=
  {| paused := paused a; ended := ended a; currentTime := currentTime a;
     duration := d; src := src a |}.

Definition set_currentTime (t : num) (a : audio) : audio :=
  {| paused := paused a; ended := ended a; currentTime := t;
     duration := duration a; src := src a |}.

Definition run (act : action) (s : session) : session :=
  match act with
  | RunEffect currentSpeech => fst (speechEffect currentSpeech s)
  | RunCleanup => cleanup s
  | PlayTimer a =>
      if decide (audioRef s = Some a) then set_audios (alter start_playing a) s else s
  | PlayRejected a => playback_failed s
  | OnLoadedMetadata a d =>
      let s1 := set_audios (alter (set_duration d) a) s in
      {| audioRef := audioRef s1; animationRef := animationRef s1;
         isPlayingRef := isPlayingRef s1; visemeIndex := visemeIndex s1;
         progress := progress s1; audioTime := audioTime s1;
         audioDuration := (Some d || zero)%num; isSpeaking := isSpeaking s1;
         audios := audios s1; nextFrameRequest := nextFrameRequest s1 |}
  | OnPlay a =>
      {| audioRef := audioRef s; animationRef := animationRef s;
         isPlayingRef := true; visemeIndex := visemeIndex s;
         progress := progress s; audioTime := audioTime s;
         audioDuration := audioDuration s; isSpeaking := true;
         audios := audios s; nextFrameRequest := nextFrameRequest s |}
  | OnEnded a =>
      let s1 := set_audios (alter finish a) s in
      {| audioRef := audioRef s1; animationRef := animationRef s1;
         isPlayingRef := false; visemeIndex := zero;
         progress := zero; audioTime := zero;
         audioDuration := zero; isSpeaking := false;
         audios := audios s1; nextFrameRequest := nextFrameRequest s1 |}
  | OnError a => playback_failed s
  | Advance a t =>
      set_audios (alter (fun au => if paused au then au else set_currentTime t au) a) s
  | StartAnimation =>
      match audioRef s with
      | Some _ => request_frame s
      | None => s
      end
  | Animate scaled lastVisemeIndex => animate scaled lastVisemeIndex s
  end.

Definition run_all (acts : list action) (s : session) : session :=
  fold_left (fun s act => run act s) acts s.

(** An element is playing when it is neither paused nor at its end. *)
Definition playing (a : audio) : bool := negb (paused a) && negb (ended a).

(** ** Vocabulary of the specification *)

(** The category an event stands for, [viseme.viseme || 0]. *)
Definition category (v : event) : num := (v !! "viseme" || zero)%num.

(** Neighbouring events are in non-decreasing order of [key]. *)
Fixpoint nondecreasing (key : event -> num) (vs : list event) : bool :=
  match vs with
  | a :: rest =>
      match rest with
      | b :: _ => (key a <=? key b)%num && nondecreasing key rest
      | [] => true
      end
  | [] => true
  end.

(** The positions, counted from [i], of the events whose interval
    contains [t]. *)
Fixpoint containers_from (i : nat) (t : num) (vs : list event) : list nat :=
  match vs with
  | [] => []
  | v :: rest =>
      if in_interval t v then i :: containers_from (S i) t rest
      else containers_from (S i) t rest
  end.

Definition containers (t : num) (vs : list event) : list nat :=
  containers_from 0 t vs.

(** [t] lies in [[first.start, last.end)]. *)
Definition within_speech (t : num) (vs : list event) : bool :=
  match head vs, last vs with
  | Some first, Some final =>
      (t >=? loop_start first)%num && (t <? loop_end final)%num
  | _, _ => false
  end.

(** The event carries no truthy [end] field. *)
Definition no_end (v : event) : Prop :=
  Num.truthy (Num.to_num (v !! "end")) = false.

(** The nearest-neighbour rule in the words of the specification: the
    category of an event whose start is closest to [t] when that distance
    is below the window, silence otherwise. *)
Definition nearest_rule (t : num) (vs : list event) (c : num) : Prop :=
  match vs with
  | [] => c = zero
  | _ =>
      exists v, v ∈ vs
        /\ (forall w, w ∈ vs -> (start_distance t v <=? start_distance t w)%num = true)
        /\ c = if (start_distance t v <? fallback_window)%num then category v else zero
  end.

(** The lookup of [getVisemeAtTime] extended with the nearest-neighbour
    rule, in the words of the specification: [c] is the category it
    yields at [t]. *)
Definition lookup_with_fallback (t : num) (vs : list event) (c : num) : Prop :=
  if existsb (in_interval t) vs
  then getVisemeAtTime t (Some vs) = Found c
  else nearest_rule t vs c.

(** The candidate list in the words of the specification, where an entry
    that is missing or empty falls back. *)
Definition claimed_candidates (visemeIndex : Z) (visemeFrameMap : gmap Z (list Z)) : list Z :=
  match visemeFrameMap !! visemeIndex with
  | Some (f :: fs) => f :: fs
  | _ =>
      match visemeFrameMap !! 0 with
      | Some (f :: fs) => f :: fs
      | _ => [1]
      end
  end.

(** Every missing [start] or [duration] replaced by [0]. *)
Definition fill (k : string) (v : event) : event :=
  match v !! k with
  | None => <[k := zero]> v
  | Some _ => v
  end.

Definition fill_missing (v : event) : event := fill "start" (fill "duration" v).

(** The frames a sequence of calls to [getInterpolatedFrame] returns. *)
Fixpoint frames_at (times : list num) (this : FrameInterpolator) : list num :=
  match times with
  | [] => []
  | t :: rest =>
      let '(frame, this') := getInterpolatedFrame t this in
      frame :: frames_at rest this'
  end.

(** The curve of [ease] on finite numbers. *)
Definition easeQ (p : Q) : Q :=
  if Num.Qltb p (1 # 2) then (inject_Z 2 * p * p)%Q
  else (1 + - ((inject_Z (-2) * p + inject_Z 2) * (inject_Z (-2) * p + inject_Z 2) / inject_Z 2))%Q.

(** ** Sample data *)

(** Fifty events in order of start; the first one spans the next
    forty-eight, which are empty. *)
Definition overlapping_visemes : list event :=
  mk_event 1 0 100 :: repeat (mk_event 2 1 0) 48 ++ [mk_event 4 200 1].

(** Sixty back-to-back events of one second each. *)
Definition back_to_back : list event :=
  map (fun k => mk_event (inject_Z (Z.of_nat k mod 8)) (inject_Z (Z.of_nat k)) 1) (seq 0 60).

(** An event with an explicit [end], and what rescaling by two makes of it. *)
Definition event_with_end : event := <["end" := Fin (1 # 2)]> (mk_event 1 0 (1 # 2)).

Definition missing_start : event := <["viseme" := Fin 3]> (<["duration" := Fin 1]> ∅).

Definition empty_entry_map : gmap Z (list Z) := <[3 := []]> (<[0 := [2; 3]]> ∅).

Definition rescaled_with_end : list event := [scale_event (Fin 2) event_with_end].

(** A store holding the two events of the end-to-end scenario, and the
    closure variables of an effect started on them. *)
Definition scenario_store : store :=
  <[1%nat := mk_event 5 (1 # 2) (1 # 2)]> (<[0%nat := mk_event 1 0 (1 # 2)]> ∅).

Definition scenario_lipsync : lipsync := init_lipsync scenario_store [0%nat; 1%nat].

(** The times [ts] are in non-decreasing order and none is before [lo]. *)
Fixpoint ascending_from (lo : Q) (ts : list Q) : Prop :=
  match ts with
  | [] => True
  | t :: rest => (lo <= t)%Q /\ ascending_from t rest
  end.

(** The frame [getInterpolatedFrame] rounds to at progress [p] of a
    transition from frame [P] to frame [F]. *)
Definition frameQ (P F : Z) (p : Q) : Z :=
  Qfloor (inject_Z P + (inject_Z F + - inject_Z P) * easeQ p + (1 # 2))%Q.

(** Every element that plays is the one [audioRef] holds. *)
Definition only_current_plays (s : session) : Prop :=
  forall a au, audios s !! a = Some au -> playing au = true -> audioRef s = Some a.

(** No element plays. *)
Definition silent (s : session) : Prop :=
  forall a au, audios s !! a = Some au -> playing au = false.

(** A request with audio and no visemes, and a session in which the
    first utterance is playing. *)
Definition sample_speech : speech :=
  {| audioData := Some "AAAA"; speechVisemes := None |}.

Definition playing_session : session :=
  run_all [RunEffect (Some sample_speech); PlayTimer 0%nat; OnPlay 0%nat] initial_session.

(** Fifty events out of order: forty-nine start at [10], the last one has
    no [start]. *)
Definition unsorted_missing_start : list event :=
  repeat (mk_event 2 10 1) 49 ++ [missing_start].

(** ** Further vocabulary *)

(** [lastEnd] as the code after the loops of [getVisemeAtTime] computes
    it from the last event. *)
Definition lastEnd_of (lastViseme : event) : num :=
  (lastViseme !! "end"
   || (Num.to_num (lastViseme !! "start") + (lastViseme !! "duration" || zero)))%num.

(** Each event ends where the next one starts. *)
Fixpoint gap_free (vs : list event) : bool :=
  match vs with
  | a :: rest =>
      match rest with
      | b :: _ => (loop_end a =? loop_start b)%num && gap_free rest
      | [] => true
      end
  | [] => true
  end.

(** The calls a client makes on a [FrameInterpolator]. *)
Inductive call : Type :=
  | SetTarget (frame : Z) (t : Q)
  | GetFrame (t : Q)
  | Reset.

(** The frames a run of calls returns, and the interpolator it leaves. *)
Fixpoint run_calls (calls : list call) (this : FrameInterpolator)
    : list num * FrameInterpolator :=
  match calls with
  | [] => ([], this)
  | SetTarget frame t :: rest => run_calls rest (setTargetFrame (Num.of_Z frame) (Fin t) this)
  | GetFrame t :: rest =>
      let '(frame, this') := getInterpolatedFrame (Fin t) this in
      let '(frames, final) := run_calls rest this' in
      (frame :: frames, final)
  | Reset :: rest => run_calls rest (reset this)
  end.

(** The times of the calls never go back, and none is before [lo]. *)
Fixpoint calls_in_order (lo : Q) (calls : list call) : Prop :=
  match calls with
  | [] => True
  | SetTarget _ t :: rest => (lo <= t)%Q /\ calls_in_order t rest
  | GetFrame t :: rest => (lo <= t)%Q /\ calls_in_order t rest
  | Reset :: rest => calls_in_order lo rest
  end.

(** Every frame the calls ask for lies between [lo] and [hi]. *)
Fixpoint targets_within (lo hi : Z) (calls : list call) : Prop :=
  match calls with
  | [] => True
  | SetTarget frame _ :: rest => lo <= frame <= hi /\ targets_within lo hi rest
  | _ :: rest => targets_within lo hi rest
  end.

(** What the proofs keep of an interpolator at time [now]: integer frames
    between [lo] and [hi], a positive duration, and a transition, if one
    is under way, that started no later than [now]. *)
Definition interpolator_ok (lo hi : Z) (now : Q) (this : FrameInterpolator) : Prop :=
  exists (c g : Z) (d : Q),
    currentFrame this = Num.of_Z c /\ targetFrame this = Num.of_Z g
    /\ transitionDuration this = Fin d /\ (0 < d)%Q
    /\ lo <= c <= hi /\ lo <= g <= hi
    /\ (isTransitioning this = true ->
        exists t0, transitionStartTime this = Fin t0 /\ (t0 <= now)%Q).

(** The rescaling step at the head of [animate]:
    [if (actualDuration > 0 && durationScale === 1.0 && estimatedDuration > 0)
       scaleVisemes(actualDuration)]. *)
Definition rescale_on_tick (actualDuration : num) (h : store) (c : lipsync)
    : option (store * lipsync) :=
  if (actualDuration >? zero)%num && (durationScale c =? one)%num
     && (estimatedDuration c >? zero)%num
  then scaleVisemes actualDuration h c
  else Some (h, c).

(** The rescaling steps of successive ticks that read the durations
    [durations] off the audio element. *)
Fixpoint ticks (durations : list num) (h : store) (c : lipsync) : option (store * lipsync) :=
  match durations with
  | [] => Some (h, c)
  | d :: rest =>
      match rescale_on_tick d h c with
      | Some (h', c') => ticks rest h' c'
      | None => None
      end
  end.

(** The rescaling step of [startAnimation], once the element is ready:
    [if (actualDur > 0) scaleVisemes(actualDur)]. *)
Definition startAnimation_rescale (actualDur : num) (h : store) (c : lipsync)
    : option (store * lipsync) :=
  if (actualDur >? zero)%num then scaleVisemes actualDur h c else Some (h, c).

(** The rescaling steps of one playback: [startAnimation] reads the first
    duration, each tick after it the next one. *)
Definition rescales (durations : list num) (h : store) (c : lipsync)
    : option (store * lipsync) :=
  match durations with
  | [] => Some (h, c)
  | actualDur :: rest =>
      match startAnimation_rescale actualDur h c with
      | Some (h', c') => ticks rest h' c'
      | None => None
      end
  end.

(** A frame map with three candidate frames for viseme [5], and a
    two-event sequence. *)
Definition three_frames : gmap Z (list Z) := <[5 := [7; 8; 9]]> ∅.

Definition two_events : list event := [mk_event 1 0 1; mk_event 5 1 1].

(** The actions after which the playback of an utterance is over: the
    cleanup, the [ended] and [error] events, a rejected [play()], and a
    tick that finds the current element paused or at its end. *)
Definition ends_playback (act : action) (s : session) : bool :=
  match act with
  | RunCleanup | PlayRejected _ | OnEnded _ | OnError _ => true
  | Animate _ _ =>
      match audioRef s with
      | Some a =>
          match audios s !! a with
          | Some au => negb (playing au)
          | None => false
          end
      | None => false
      end
  | _ => false
  end.

(** A session in which the element of [sample_speech], two seconds long,
    is playing and has reached its first second. *)
Definition midway_session : session :=
  run_all [RunEffect (Some sample_speech); OnLoadedMetadata 0%nat (Fin 2);
           PlayTimer 0%nat; OnPlay 0%nat; Advance 0%nat (Fin 1)] initial_session.






(** Times and starts up to this magnitude keep [timeInViseme * cycleRate]
    within the finite range of the numbers of the source, which the
    rationals of the model do not limit. *)
Definition time_bound : Q := inject_Z (2 ^ 1019).

(** * Properties *)

(** ** Order facts on numbers *)

Lemma Qltb_lt (a b : Q) : Num.Qltb a b = true <-> (a < b)%Q.
Proof.
  unfold Num.Qltb. rewrite negb_true_iff.
  split.
  - intros H. apply Qnot_le_lt. intros Hle.
    apply Qle_bool_iff in Hle. congruence.
  - intros H. destruct (Qle_bool b a) eqn:E; [|reflexivity].
    apply Qle_bool_iff in E. lra.
Qed.

Lemma Qltb_ge (a b : Q) : Num.Qltb a b = false <-> (b <= a)%Q.
Proof.
  unfold Num.Qltb. rewrite negb_false_iff. apply Qle_bool_iff.
Qed.

Lemma Qle_bool_gt (a b : Q) : Qle_bool a b = false <-> (b < a)%Q.
Proof.
  split.
  - intros H. apply Qnot_le_lt. intros Hle. apply Qle_bool_iff in Hle. congruence.
  - intros H. destruct (Qle_bool a b) eqn:E; [|reflexivity].
    apply Qle_bool_iff in E. lra.
Qed.

(** Turns the boolean comparisons over [Q] in the goal and the context
    into propositions. *)
Ltac num_bools :=
  repeat match goal with
  | H : Num.Qltb _ _ = true |- _ => apply Qltb_lt in H
  | H : Num.Qltb _ _ = false |- _ => apply Qltb_ge in H
  | H : Qle_bool _ _ = true |- _ => apply Qle_bool_iff in H
  | H : Qle_bool _ _ = false |- _ => apply Qle_bool_gt in H
  | |- Num.Qltb _ _ = true => apply Qltb_lt
  | |- Num.Qltb _ _ = false => apply Qltb_ge
  | |- Qle_bool _ _ = true => apply Qle_bool_iff
  | |- Qle_bool _ _ = false => apply Qle_bool_gt
  end.

(** Case analysis on every number of the context, then arithmetic. *)
Ltac num_cases :=
  unfold Num.ge, Num.gt in *;
  repeat match goal with n : num |- _ => destruct n end;
  simpl in *; try discriminate; try reflexivity; num_bools; try lra.

Section NumOrderFacts.

Implicit Types a b c : num.

Lemma num_lt_le_trans a b c :
  (a <? b)%num = true -> (b <=? c)%num = true -> (a <? c)%num = true.
Proof. intros. num_cases. Qed.

Lemma num_le_lt_trans a b c :
  (a <=? b)%num = true -> (b <? c)%num = true -> (a <? c)%num = true.
Proof. intros. num_cases. Qed.

Lemma num_le_trans a b c :
  (a <=? b)%num = true -> (b <=? c)%num = true -> (a <=? c)%num = true.
Proof. intros. num_cases. Qed.

Lemma num_lt_not_le a b :
  (a <? b)%num = true -> (b <=? a)%num = true -> False.
Proof. intros. num_cases. Qed.

(** Two numbers that are not [NaN] are comparable. *)
Lemma num_total a b :
  (a <=? a)%num = true -> (b <=? b)%num = true ->
  (a <? b)%num = false -> (b <=? a)%num = true.
Proof. intros. num_cases. Qed.

Lemma num_lt_le a b : (a <? b)%num = true -> (a <=? b)%num = true.
Proof. intros. num_cases. Qed.

Lemma num_lt_refl_l a b : (a <? b)%num = true -> (a <=? a)%num = true.
Proof. intros. num_cases. Qed.

Lemma num_le_refl_l a b : (a <=? b)%num = true -> (a <=? a)%num = true.
Proof. intros. num_cases. Qed.

Lemma num_le_refl_r a b : (a <=? b)%num = true -> (b <=? b)%num = true.
Proof. intros. num_cases. Qed.

(** [o || d] is never [NaN] when [d] is not. *)
Lemma or_else_refl (o : option num) (d : num) :
  (d <=? d)%num = true -> ((o || d) <=? (o || d))%num = true.
Proof.
  intros Hd. unfold Num.or_else. destruct o as [n|]; [|exact Hd].
  destruct (Num.truthy n) eqn:E; [|exact Hd].
  destruct n; simpl in *; try discriminate; try reflexivity.
  num_bools. lra.
Qed.

End NumOrderFacts.

(** ** The two lookup strategies *)

Section Lookup.

Variable t : num.

Lemma nondecreasing_lookup (key : event -> num) (vs : list event) :
  nondecreasing key vs = true ->
  forall i j vi vj, vs !! i = Some vi -> vs !! j = Some vj -> (i < j)%nat ->
  (key vi <=? key vj)%num = true.
Proof.
  induction vs as [|a rest IH]; intros Hs i j vi vj Hi Hj Hlt.
  - discriminate.
  - destruct rest as [|b rest'].
    + destruct j; [lia|]. discriminate.
    + simpl in Hs. apply andb_prop in Hs as [Hab Hrest].
      destruct i as [|i'].
      * injection Hi as <-. destruct j as [|j']; [lia|].
        destruct j' as [|j''].
        -- injection Hj as <-. exact Hab.
        -- eapply num_le_trans; [exact Hab|].
           apply (IH Hrest 0%nat (S j'') b vj); [reflexivity | exact Hj | lia].
      * destruct j as [|j']; [lia|].
        apply (IH Hrest i' j' vi vj); [exact Hi | exact Hj | lia].
Qed.

Lemma containers_from_spec (vs : list event) :
  forall k i, i ∈ containers_from k t vs <->
    exists v, (k <= i)%nat /\ vs !! (i - k)%nat = Some v /\ in_interval t v = true.
Proof.
  induction vs as [|a rest IH]; intros k i; simpl.
  - split; [intros H; inversion H | intros (v & _ & H & _); discriminate].
  - assert (Hrest : i ∈ containers_from (S k) t rest <->
      exists v, (k <= i)%nat /\ (a :: rest) !! (i - k)%nat = Some v
                /\ in_interval t v = true /\ i <> k).
    { rewrite IH. split.
      - intros (v & Hk & Hv & Hin). exists v. repeat split; [lia| |exact Hin|lia].
        replace (i - k)%nat with (S (i - S k)) by lia. exact Hv.
      - intros (v & Hk & Hv & Hin & Hne). exists v. repeat split; [lia| |exact Hin].
        replace (i - k)%nat with (S (i - S k)) in Hv by lia. exact Hv. }
    destruct (in_interval t a) eqn:Ea.
    + rewrite elem_of_cons, Hrest. split.
      * intros [-> | (v & Hk & Hv & Hin & _)].
        -- exists a. rewrite Nat.sub_diag. auto.
        -- exists v. auto.
      * intros (v & Hk & Hv & Hin).
        destruct (decide (i = k)) as [->|Hne]; [left; reflexivity|].
        right. exists v. auto.
    + rewrite Hrest. split.
      * intros (v & Hk & Hv & Hin & _). exists v. auto.
      * intros (v & Hk & Hv & Hin). exists v. repeat split; auto.
        intros ->. rewrite Nat.sub_diag in Hv. injection Hv as <-. congruence.
Qed.

Lemma containers_spec (vs : list event) (i : nat) :
  i ∈ containers t vs <-> exists v, vs !! i = Some v /\ in_interval t v = true.
Proof.
  unfold containers. rewrite containers_from_spec. rewrite Nat.sub_0_r.
  split; intros (v & H); exists v; [tauto | split; [lia | tauto]].
Qed.

(** The linear loop returns the category of the first container. *)
Lemma linear_loop_first (vs : list event) :
  forall k, linear_loop t vs =
    match containers_from k t vs with
    | [] => Missed
    | i :: _ =>
        match vs !! (i - k)%nat with
        | Some v => Found (category v)
        | None => Missed
        end
    end.
Proof.
  induction vs as [|a rest IH]; intros k; simpl; [reflexivity|].
  destruct (in_interval t a).
  - rewrite Nat.sub_diag. reflexivity.
  - rewrite (IH (S k)).
    destruct (containers_from (S k) t rest) as [|i l] eqn:E; [reflexivity|].
    assert (Hi : i ∈ containers_from (S k) t rest) by (rewrite E; left).
    apply containers_from_spec in Hi as (v & Hk & Hv & _).
    replace (i - k)%nat with (S (i - S k)) by lia. reflexivity.
Qed.

Lemma linear_loop_none (vs : list event) :
  existsb (in_interval t) vs = false -> linear_loop t vs = Missed.
Proof.
  induction vs as [|a rest IH]; simpl; [reflexivity|].
  intros H. apply orb_false_elim in H as [-> H]. auto.
Qed.

Lemma containers_nil (vs : list event) :
  containers t vs = [] <-> existsb (in_interval t) vs = false.
Proof.
  unfold containers. generalize 0%nat.
  induction vs as [|a rest IH]; intros k; simpl; [tauto|].
  destruct (in_interval t a); simpl; [split; discriminate|]. apply IH.
Qed.

(** The binary loop stays inside the array and within its fuel. *)
Lemma binary_loop_returns (vs : list event) :
  forall fuel left right,
  0 <= left -> right < Z.of_nat (length vs) -> right - left < Z.of_nat fuel ->
  binary_loop fuel t vs left right = Missed
  \/ exists j v, vs !! j = Some v /\ in_interval t v = true
       /\ binary_loop fuel t vs left right = Found (category v).
Proof.
  induction fuel as [|fuel IH]; intros left right Hl Hr Hf; simpl.
  - destruct (left <=? right) eqn:E; [apply Z.leb_le in E; lia | left; reflexivity].
  - destruct (left <=? right) eqn:E; [|left; reflexivity].
    apply Z.leb_le in E.
    pose proof (Z.div_mod (left + right) 2 ltac:(lia)) as Hdm.
    pose proof (Z.mod_pos_bound (left + right) 2 ltac:(lia)) as Hmod.
    set (mid := (left + right) / 2) in *.
    assert (Hmid : left <= mid <= right) by lia.
    destruct (0 <=? mid) eqn:E0; [|apply Z.leb_gt in E0; lia].
    destruct (vs !! Z.to_nat mid) as [v|] eqn:Ev.
    + destruct (in_interval t v) eqn:Ein.
      * right. exists (Z.to_nat mid), v. auto.
      * destruct (t <? loop_start v)%num; apply IH; lia.
    + apply lookup_ge_None in Ev. lia.
Qed.

(** Any fuel beyond the width of the window gives the same result, so
    running on [length vs] is running the loop of the code. *)
Lemma binary_loop_fuel (vs : list event) :
  forall fuel1 fuel2 left right,
  right - left < Z.of_nat fuel1 -> right - left < Z.of_nat fuel2 ->
  binary_loop fuel1 t vs left right = binary_loop fuel2 t vs left right.
Proof.
  induction fuel1 as [|fuel1 IH]; intros fuel2 left right H1 H2.
  - destruct fuel2; simpl; destruct (left <=? right) eqn:E; try reflexivity;
      apply Z.leb_le in E; lia.
  - destruct fuel2 as [|fuel2]; simpl.
    + destruct (left <=? right) eqn:E; [apply Z.leb_le in E; lia | reflexivity].
    + destruct (left <=? right) eqn:E; [|reflexivity].
      apply Z.leb_le in E.
      pose proof (Z.div_mod (left + right) 2 ltac:(lia)) as Hdm.
      pose proof (Z.mod_pos_bound (left + right) 2 ltac:(lia)) as Hmod.
      set (mid := (left + right) / 2) in *.
      destruct (if 0 <=? mid then vs !! Z.to_nat mid else None) as [v|]; [|reflexivity].
      destruct (in_interval t v); [reflexivity|].
      destruct (t <? loop_start v)%num; apply IH; lia.
Qed.

Section Sorted.

Variable vs : list event.
Hypothesis starts_sorted : nondecreasing loop_start vs = true.
Hypothesis ends_sorted : nondecreasing loop_end vs = true.

Variables (i : nat) (vi : event).
Hypothesis Hvi : vs !! i = Some vi.
Hypothesis Hin : in_interval t vi = true.

Lemma loop_start_refl (v : event) : (loop_start v <=? loop_start v)%num = true.
Proof. apply or_else_refl. reflexivity. Qed.

(** With starts and ends in order, the binary loop reaches a container
    whenever the window holds one. *)
Lemma binary_loop_finds :
  forall fuel left right,
  0 <= left -> right < Z.of_nat (length vs) ->
  left <= Z.of_nat i <= right -> right - left < Z.of_nat fuel ->
  exists j v, vs !! j = Some v /\ in_interval t v = true
    /\ binary_loop fuel t vs left right = Found (category v).
Proof.
  destruct (andb_prop _ _ Hin) as [Hge Hlt].
  induction fuel as [|fuel IH]; intros left right Hl Hr Hi Hf; [lia|].
  simpl.
  destruct (left <=? right) eqn:E; [|apply Z.leb_gt in E; lia].
  pose proof (Z.div_mod (left + right) 2 ltac:(lia)) as Hdm.
  pose proof (Z.mod_pos_bound (left + right) 2 ltac:(lia)) as Hmod.
  set (mid := (left + right) / 2) in *.
  assert (Hmid : left <= mid <= right) by lia.
  destruct (0 <=? mid) eqn:E0; [|apply Z.leb_gt in E0; lia].
  destruct (vs !! Z.to_nat mid) as [v|] eqn:Ev;
    [|apply lookup_ge_None in Ev; lia].
  destruct (in_interval t v) eqn:Ein.
  { exists (Z.to_nat mid), v. auto. }
  assert (Hne : Z.of_nat i <> mid).
  { intros Heq. rewrite <- Heq, Nat2Z.id in Ev. congruence. }
  destruct (t <? loop_start v)%num eqn:Ets.
  - apply IH; try lia.
    destruct (Z_lt_le_dec (Z.of_nat i) mid) as [|Hle]; [lia|]. exfalso.
    assert (Hs : (loop_start v <=? loop_start vi)%num = true).
    { apply (nondecreasing_lookup loop_start vs starts_sorted (Z.to_nat mid) i);
        auto; lia. }
    apply (num_lt_not_le _ _ Ets).
    eapply num_le_trans; [exact Hs | exact Hge].
  - apply IH; try lia.
    destruct (Z_lt_le_dec mid (Z.of_nat i)) as [|Hle]; [lia|]. exfalso.
    assert (He : (loop_end vi <=? loop_end v)%num = true).
    { apply (nondecreasing_lookup loop_end vs ends_sorted i (Z.to_nat mid));
        auto; lia. }
    assert (Hlt' : (t <? loop_end v)%num = true)
      by (eapply num_lt_le_trans; eauto).
    unfold in_interval in Ein. rewrite Hlt', andb_true_r in Ein.
    assert (Htot : (loop_start v <=? t)%num = true).
    { apply num_total; [eapply num_lt_refl_l; eauto | apply loop_start_refl | exact Ets]. }
    unfold Num.ge in Ein. congruence.
Qed.

End Sorted.

End Lookup.

Lemma linear_loop_found (t : num) (vs : list event) (c : num) :
  linear_loop t vs = Found c ->
  exists v, v ∈ vs /\ in_interval t v = true /\ c = category v.
Proof.
  induction vs as [|a rest IH]; simpl; [discriminate|].
  destruct (in_interval t a) eqn:E.
  - intros H. injection H as <-. exists a. split; [left|]. auto.
  - intros H. destruct (IH H) as (v & Hv & Hin & Hc).
    exists v. split; [right; exact Hv | auto].
Qed.

Lemma existsb_in_interval (t : num) (vs : list event) (v : event) :
  v ∈ vs -> in_interval t v = true -> existsb (in_interval t) vs = true.
Proof.
  intros Hv Hin. apply existsb_exists. exists v.
  split; [apply list_elem_of_In; exact Hv | exact Hin].
Qed.

(** Without a container both loops run to their end. *)
Lemma loops_miss (t : num) (vs : list event) :
  existsb (in_interval t) vs = false ->
  linear_loop t vs = Missed
  /\ binary_loop (length vs) t vs 0 (Z.of_nat (length vs) - 1) = Missed.
Proof.
  intros Hno. split; [apply linear_loop_none; exact Hno|].
  destruct (binary_loop_returns t vs (length vs) 0 (Z.of_nat (length vs) - 1))
    as [H | (j & v & Hj & Hin & _)]; try lia; [exact H|].
  rewrite (existsb_in_interval t vs v) in Hno; [discriminate| |exact Hin].
  apply list_elem_of_lookup. eauto.
Qed.


Lemma linear_loop_returns (t : num) (vs : list event) :
  linear_loop t vs = Missed \/ exists c, linear_loop t vs = Found c.
Proof.
  induction vs as [|a rest IH]; simpl; [left; reflexivity|].
  destruct (in_interval t a); [right; eauto | exact IH].
Qed.

Lemma past_end_returns (t : num) (vs : list event) :
  vs <> [] -> exists c, past_end t vs = Found c.
Proof.
  intros Hne. unfold past_end.
  destruct (last vs) as [v|] eqn:E; [eauto|].
  apply last_None in E. contradiction.
Qed.

(** [getVisemeAtTime] returns a category on every input: no loop reads
    outside the array and the binary loop ends within its fuel. *)
Lemma getVisemeAtTime_returns (t : num) (vs : option (list event)) :
  exists c, getVisemeAtTime t vs = Found c.
Proof.
  destruct vs as [[|a rest]|]; simpl; eauto.
  set (vs := a :: rest).
  assert (Hne : vs <> []) by discriminate.
  destruct (past_end_returns t vs Hne) as [c Hc].
  change (S (length rest)) with (length vs).
  destruct (length vs <? 50)%nat.
  - unfold lookup_linear.
    destruct (linear_loop_returns t vs) as [-> | [c' ->]]; simpl; eauto.
  - unfold lookup_binary.
    destruct (binary_loop_returns t vs (length vs) 0 (Z.of_nat (length vs) - 1))
      as [-> | (j & v & _ & _ & ->)]; simpl; eauto; lia.
Qed.

Lemma within_speech_container (t : num) (vs : list event) (i : nat) (v : event) :
  nondecreasing loop_start vs = true ->
  nondecreasing loop_end vs = true ->
  vs !! i = Some v -> in_interval t v = true ->
  within_speech t vs = true.
Proof.
  intros Hs He Hv Hin. unfold within_speech.
  destruct (andb_prop _ _ Hin) as [Hge Hlt].
  destruct vs as [|first rest]; [discriminate|]. simpl head.
  destruct (last (first :: rest)) as [final|] eqn:El;
    [|apply last_None in El; discriminate].
  apply andb_true_intro. split.
  - destruct i as [|i'].
    + injection Hv as ->. exact Hge.
    + unfold Num.ge in *. eapply num_le_trans; [|exact Hge].
      apply (nondecreasing_lookup loop_start _ Hs 0%nat (S i')); auto. lia.
  - rewrite last_lookup in El.
    set (n := Nat.pred (length (first :: rest))) in *.
    assert (Hi : (i <= n)%nat).
    { apply lookup_lt_Some in Hv. subst n. lia. }
    destruct (decide (i = n)) as [->|Hne].
    + rewrite Hv in El. injection El as <-. exact Hlt.
    + eapply num_lt_le_trans; [exact Hlt|].
      apply (nondecreasing_lookup loop_end _ He i n); auto. lia.
Qed.

Lemma container_in_interval (t : num) (vs : list event) (i : nat) (l : list nat) (v : event) :
  containers t vs = i :: l -> vs !! i = Some v -> in_interval t v = true.
Proof.
  intros Hc Hv.
  assert (Hi : i ∈ containers t vs) by (rewrite Hc; left).
  apply containers_spec in Hi as (v' & Hv' & Hin). congruence.
Qed.

(** The linear strategy returns the category of the first container. *)
Lemma lookup_linear_container (t : num) (vs : list event) (i : nat) (l : list nat) (v : event) :
  containers t vs = i :: l -> vs !! i = Some v ->
  lookup_linear t vs = Found (category v).
Proof.
  intros Hc Hv. unfold lookup_linear. rewrite (linear_loop_first t vs 0).
  unfold containers in Hc. rewrite Hc, Nat.sub_0_r, Hv. reflexivity.
Qed.

(** With starts and ends in order the binary strategy returns the
    category of the only container. *)
Lemma lookup_binary_unique (t : num) (vs : list event) (i : nat) (v : event) :
  nondecreasing loop_start vs = true ->
  nondecreasing loop_end vs = true ->
  containers t vs = [i] ->
  vs !! i = Some v ->
  lookup_binary t vs = Found (category v).
Proof.
  intros Hs He Hc Hv. unfold lookup_binary.
  pose proof (container_in_interval t vs i [] v Hc Hv) as Hin.
  pose proof (lookup_lt_Some _ _ _ Hv) as Hlen.
  destruct (binary_loop_finds t vs Hs He i v Hv Hin (length vs) 0
              (Z.of_nat (length vs) - 1)) as (j & vj & Hj & Hjin & ->); try lia.
  assert (Hjc : j ∈ containers t vs) by (apply containers_spec; eauto).
  rewrite Hc in Hjc. apply list_elem_of_singleton in Hjc as ->.
  replace vj with v by congruence. reflexivity.
Qed.

(** C2, amended.  For a sequence whose starts and whose ends are both in
    non-decreasing order and a time [t] that exactly one interval contains
    (it then lies in [[first.start, last.end)]), the lookup returns the
    category of that interval, and the linear scan and the binary search
    both return it. *)
Theorem lookup_unique_container (t : num) (vs : list event) (i : nat) (v : event) :
  nondecreasing loop_start vs = true ->
  nondecreasing loop_end vs = true ->
  containers t vs = [i] ->
  vs !! i = Some v ->
  within_speech t vs = true
  /\ getVisemeAtTime t (Some vs) = Found (category v)
  /\ lookup_linear t vs = Found (category v)
  /\ lookup_binary t vs = Found (category v).
Proof.
  intros Hs He Hc Hv.
  pose proof (container_in_interval t vs i [] v Hc Hv) as Hin.
  pose proof (lookup_linear_container t vs i [] v Hc Hv) as Hlin.
  pose proof (lookup_binary_unique t vs i v Hs He Hc Hv) as Hbin.
  split; [exact (within_speech_container t vs i v Hs He Hv Hin)|].
  split; [|split; assumption].
  destruct vs as [|a rest]; [discriminate|].
  unfold getVisemeAtTime.
  destruct (length (a :: rest) <? 50)%nat; assumption.
Qed.

Lemma lookup_unique_container_witness :
  within_speech (Fin (61 # 2)) back_to_back = true
  /\ getVisemeAtTime (Fin (61 # 2)) (Some back_to_back) = Found (category (mk_event 6 30 1))
  /\ lookup_linear (Fin (61 # 2)) back_to_back = Found (category (mk_event 6 30 1))
  /\ lookup_binary (Fin (61 # 2)) back_to_back = Found (category (mk_event 6 30 1)).
Proof.
  apply (lookup_unique_container (Fin (61 # 2)) back_to_back 30 (mk_event 6 30 1));
    vm_compute; reflexivity.
Defined.

(** C2 as stated fails.  [overlapping_visemes] has fifty events in
    non-decreasing order of start, [t = 5] lies in [[first.start, last.end)]
    and only the first interval contains it; the linear scan returns its
    category [1], the binary search, and with it the lookup, returns [4]. *)
Lemma binary_search_misses_container :
  length overlapping_visemes = 50%nat
  /\ nondecreasing loop_start overlapping_visemes = true
  /\ within_speech (Fin 5) overlapping_visemes = true
  /\ containers (Fin 5) overlapping_visemes = [0%nat]
  /\ category <$> overlapping_visemes !! 0%nat = Some (Fin 1)
  /\ lookup_linear (Fin 5) overlapping_visemes = Found (Fin 1)
  /\ lookup_binary (Fin 5) overlapping_visemes = Found (Fin 4)
  /\ getVisemeAtTime (Fin 5) (Some overlapping_visemes) = Found (Fin 4).
Proof. vm_compute. repeat split. Qed.

(** ** The viseme resolved on an animation tick *)

Section Resolve.

Variable q : Q.
Let t : num := Fin q.

Lemma no_end_loop_end (v : event) :
  no_end v -> loop_end v = (loop_start v + (v !! "duration" || zero))%num.
Proof.
  unfold no_end, loop_end, Num.or_else at 1. intros H.
  destruct (v !! "end") as [e|]; [|reflexivity].
  simpl in H. rewrite H. reflexivity.
Qed.

Lemma animate_in_range_interval (e : num) (v : event) :
  no_end v -> animate_in_range e v = in_interval e v.
Proof.
  intros H. unfold animate_in_range, in_interval.
  rewrite (no_end_loop_end v H). reflexivity.
Qed.

Lemma animate_scan_linear (e : num) (vs : list event) :
  Forall no_end vs ->
  animate_scan e vs =
    match linear_loop e vs with
    | Found c => Some c
    | _ => None
    end.
Proof.
  induction 1 as [|v rest Hv _ IH]; simpl; [reflexivity|].
  rewrite (animate_in_range_interval e v Hv).
  destruct (in_interval e v); [reflexivity | exact IH].
Qed.

(** At a finite time no distance is [NaN]. *)
Lemma start_distance_refl (v : event) :
  (start_distance t v <=? start_distance t v)%num = true.
Proof.
  unfold start_distance.
  pose proof (or_else_refl (v !! "start") zero eq_refl) as H.
  destruct (v !! "start" || zero)%num; simpl in *; try discriminate; try reflexivity.
  apply Qle_bool_iff. lra.
Qed.

Lemma closer_fold (rest : list event) :
  forall best : event * num,
  (snd best <=? snd best)%num = true ->
  let r := fold_left (closer t) rest best in
  (r = best \/ (fst r ∈ rest /\ snd r = start_distance t (fst r)))
  /\ (snd r <=? snd best)%num = true
  /\ (forall w, w ∈ rest -> (snd r <=? start_distance t w)%num = true).
Proof.
  induction rest as [|a rest IH]; intros best Hb; simpl.
  - repeat split; auto. intros w Hw. inversion Hw.
  - set (b' := closer t best a).
    assert (Hb' : (snd b' <=? snd b')%num = true
                  /\ (snd b' <=? snd best)%num = true
                  /\ (snd b' <=? start_distance t a)%num = true
                  /\ (b' = best \/ b' = (a, start_distance t a))).
    { subst b'. unfold closer.
      pose proof (start_distance_refl a) as Ha.
      destruct (start_distance t a <? snd best)%num eqn:E; simpl.
      - repeat split; auto. apply num_lt_le; exact E.
      - repeat split; auto. apply num_total; auto. }
    destruct Hb' as (Hr & Hle & Hla & Hcase).
    destruct (IH b' Hr) as (Hwho & Hmin & Hall).
    repeat split.
    + destruct Hwho as [-> | [Hin Hd]].
      * destruct Hcase as [-> | ->]; [left; reflexivity|].
        right. split; [left | reflexivity].
      * right. split; [right; exact Hin | exact Hd].
    + eapply num_le_trans; eauto.
    + intros w Hw. apply elem_of_cons in Hw as [-> | Hw]; [|auto].
      eapply num_le_trans; eauto.
Qed.

Lemma closest_nearest (v0 : event) (rest : list event) :
  exists v d, closest t (v0 :: rest) = Some (v, d)
    /\ v ∈ v0 :: rest
    /\ d = start_distance t v
    /\ (forall w, w ∈ v0 :: rest -> (d <=? start_distance t w)%num = true).
Proof.
  unfold closest.
  destruct (closer_fold rest (v0, start_distance t v0) (start_distance_refl v0))
    as (Hwho & Hmin & Hall).
  destruct (fold_left (closer t) rest (v0, start_distance t v0)) as [v d] eqn:E.
  simpl in *. exists v, d. split; [reflexivity|].
  assert (Hv : v ∈ v0 :: rest /\ d = start_distance t v).
  { destruct Hwho as [Heq | [Hin Hd]].
    - injection Heq as -> ->. split; [left | reflexivity].
    - split; [right; exact Hin | exact Hd]. }
  destruct Hv as [Hv Hd]. repeat split; auto.
  intros w Hw. apply elem_of_cons in Hw as [-> | Hw]; auto.
Qed.

(** Without a container the tick follows the nearest-neighbour rule. *)
Lemma resolve_nearest (vs : list event) :
  animate_scan t vs = None -> nearest_rule t vs (fst (resolve_viseme t vs)).
Proof.
  intros Hscan. unfold resolve_viseme. rewrite Hscan.
  destruct vs as [|v0 rest]; [reflexivity|].
  destruct (closest_nearest v0 rest) as (v & d & -> & Hv & -> & Hall).
  unfold nearest_rule. exists v. split; [exact Hv|]. split; [exact Hall|].
  unfold category.
  destruct (start_distance t v <? fallback_window)%num; reflexivity.
Qed.

End Resolve.

(** C1, amended.  On a tick at a finite time [t], for a scaled sequence
    none of whose events carries a truthy [end] field and which has fewer
    than fifty events (or, when longer, has starts and ends in
    non-decreasing order and at most one interval containing [t]), the
    category the loop resolves is the one [getVisemeAtTime] returns when
    some interval contains [t], and otherwise follows the nearest-neighbour
    rule: the category of an event whose start is closest to [t] when that
    distance is below 0.2, silence otherwise. *)
Theorem animate_resolves_lookup_with_fallback (t : Q) (scaled : list event) :
  Forall no_end scaled ->
  ((length scaled < 50)%nat
   \/ (nondecreasing loop_start scaled = true
       /\ nondecreasing loop_end scaled = true
       /\ (length (containers (Fin t) scaled) <= 1)%nat)) ->
  lookup_with_fallback (Fin t) scaled (fst (resolve_viseme (Fin t) scaled)).
Proof.
  intros Hno Hshape. unfold lookup_with_fallback.
  pose proof (animate_scan_linear (Fin t) scaled Hno) as Hscan.
  destruct (existsb (in_interval (Fin t)) scaled) eqn:Eex.
  - destruct (containers (Fin t) scaled) as [|i l] eqn:Ec.
    { apply containers_nil in Ec. congruence. }
    assert (Hi : i ∈ containers (Fin t) scaled) by (rewrite Ec; left).
    apply containers_spec in Hi as (v & Hv & Hin).
    pose proof (lookup_linear_container (Fin t) scaled i l v Ec Hv) as Hlin.
    assert (Hloop : linear_loop (Fin t) scaled = Found (category v)).
    { unfold lookup_linear in Hlin.
      destruct (linear_loop_returns (Fin t) scaled) as [Hm | [c Hc]].
      - rewrite (linear_loop_first (Fin t) scaled 0) in Hm.
        unfold containers in Ec. rewrite Ec, Nat.sub_0_r, Hv in Hm. discriminate.
      - rewrite Hc in Hlin |- *. exact Hlin. }
    unfold resolve_viseme. rewrite Hscan, Hloop. simpl.
    destruct scaled as [|a rest]; [discriminate|].
    unfold getVisemeAtTime.
    destruct (length (a :: rest) <? 50)%nat eqn:Elen; [exact Hlin|].
    apply Nat.ltb_ge in Elen.
    destruct Hshape as [Hlt | (Hs & He & Hone)]; [lia|].
    destruct l; [|simpl in Hone; lia].
    exact (lookup_binary_unique (Fin t) (a :: rest) i v Hs He Ec Hv).
  - apply resolve_nearest. rewrite Hscan.
    rewrite (linear_loop_none (Fin t) scaled Eex). reflexivity.
Qed.

Lemma animate_resolves_lookup_with_fallback_witness :
  lookup_with_fallback (Fin (12 # 10)) [mk_event 1 0 1; mk_event 5 1 1]
    (fst (resolve_viseme (Fin (12 # 10)) [mk_event 1 0 1; mk_event 5 1 1])).
Proof.
  apply (animate_resolves_lookup_with_fallback (12 # 10) [mk_event 1 0 1; mk_event 5 1 1]).
  - repeat constructor.
  - left. simpl. lia.
Defined.

(** C1 as stated fails.  An event with [end = 0.5] rescaled by two keeps
    that [end] while its duration becomes [1]; at [t = 0.75] the tick
    resolves its category [1], whereas no interval of [getVisemeAtTime]
    contains [t], the lookup returns [0], and the only event starts
    [0.75] away, so the nearest-neighbour rule yields [0] as well.  And on
    the fifty events of [overlapping_visemes], none with an [end] field,
    the tick resolves the category [1] of the interval that contains
    [t = 5] while the lookup returns [4]. *)
Lemma animate_ignores_end_field :
  resolve_viseme (Fin (3 # 4)) rescaled_with_end = (Fin 1, true)
  /\ existsb (in_interval (Fin (3 # 4))) rescaled_with_end = false
  /\ getVisemeAtTime (Fin (3 # 4)) (Some rescaled_with_end) = Found zero
  /\ ~ lookup_with_fallback (Fin (3 # 4)) rescaled_with_end (Fin 1)
  /\ resolve_viseme (Fin 5) overlapping_visemes = (Fin 1, true)
  /\ existsb (in_interval (Fin 5)) overlapping_visemes = true
  /\ getVisemeAtTime (Fin 5) (Some overlapping_visemes) = Found (Fin 4).
Proof.
  assert (E : existsb (in_interval (Fin (3 # 4))) rescaled_with_end = false)
    by (vm_compute; reflexivity).
  split; [vm_compute; reflexivity|].
  split; [exact E|].
  split; [vm_compute; reflexivity|].
  split; [|vm_compute; repeat split].
  unfold lookup_with_fallback. rewrite E.
  intros (v & Hv & _ & Hc).
  apply list_elem_of_singleton in Hv. subst v.
  vm_compute in Hc. discriminate Hc.
Qed.

(** ** Rescaling *)

Section Rescale.

Variable f : event -> event.

Lemma map_alloc_spec (array : list loc) :
  forall h : store,
  Forall (fun l => is_Some (h !! l)) array ->
  exists ls h', map_alloc f array h = Some (ls, h')
    /\ h ⊆ h'
    /\ Forall2 (fun l l' => (l' ∉ dom h)
                  /\ exists v, h !! l = Some v /\ h' !! l' = Some (f v)) array ls.
Proof.
  induction array as [|l rest IH]; intros h Hall; simpl.
  - exists [], h. repeat split; [reflexivity | constructor].
  - inversion Hall as [|? ? [v Hv] Hrest]; subst. rewrite Hv.
    set (l' := fresh (dom h)).
    assert (Hfresh : l' ∉ dom h) by apply is_fresh.
    assert (Hnone : h !! l' = None) by (apply not_elem_of_dom; exact Hfresh).
    set (h1 := <[l' := f v]> h).
    assert (Hsub : h ⊆ h1) by (apply insert_subseteq; exact Hnone).
    assert (Hrest1 : Forall (fun l => is_Some (h1 !! l)) rest).
    { eapply Forall_impl; [exact Hrest|]. intros x [w Hw].
      exists w. eapply lookup_weaken; eauto. }
    destruct (IH h1 Hrest1) as (ls & h' & -> & Hsub' & Hpairs).
    exists (l' :: ls), h'. split; [reflexivity|].
    split; [etransitivity; eauto|].
    constructor.
    + split; [exact Hfresh|]. exists v. split; [exact Hv|].
      eapply lookup_weaken; [|exact Hsub']. subst h1. apply lookup_insert_eq.
    + clear IH. induction Hpairs as [|x y xs ys (Hy & w & Hw & Hw') _ IHp].
      * constructor.
      * inversion Hrest as [|? ? [w0 Hw0] Hrest']; subst.
        inversion Hrest1; subst.
        constructor; [|apply IHp; auto].
        split.
        -- intros Hin. apply Hy. subst h1. rewrite dom_insert. set_solver.
        -- exists w0. split; [exact Hw0|].
           assert (h1 !! x = Some w0) by (eapply lookup_weaken; eauto).
           congruence.
Qed.

End Rescale.

(** What [scaleVisemes] does when both durations are positive. *)
Lemma scaleVisemes_scaled (actualDuration : num) (h : store) (c : lipsync) :
  (estimatedDuration c >? zero)%num = true ->
  (actualDuration >? zero)%num = true ->
  Forall (fun l => is_Some (h !! l)) (visemeData c) ->
  let scale := (actualDuration / estimatedDuration c)%num in
  exists ls h',
    scaleVisemes actualDuration h c =
      Some (h', {| visemeData := visemeData c;
                   estimatedDuration := estimatedDuration c;
                   durationScale := scale;
                   scaledVisemes := ls |})
    /\ h ⊆ h'
    /\ Forall2 (fun l l' => (l' ∉ dom h)
                  /\ exists v, h !! l = Some v
                       /\ h' !! l' = Some (scale_event scale v)) (visemeData c) ls.
Proof.
  intros He Ha Hall scale. unfold scaleVisemes. rewrite He, Ha. cbn [andb].
  fold scale.
  destruct (map_alloc_spec (scale_event scale) (visemeData c) h Hall)
    as (ls & h' & Hrun & Hsub & Hpairs).
  rewrite Hrun. exists ls, h'. auto.
Qed.

(** What [scaleVisemes] does otherwise. *)
Lemma scaleVisemes_identity (actualDuration : num) (h : store) (c : lipsync) :
  (estimatedDuration c >? zero)%num && (actualDuration >? zero)%num = false ->
  scaleVisemes actualDuration h c =
    Some (h, {| visemeData := visemeData c;
                estimatedDuration := estimatedDuration c;
                durationScale := durationScale c;
                scaledVisemes := visemeData c |}).
Proof. intros H. unfold scaleVisemes. rewrite H. reflexivity. Qed.

Lemma not_positive (a : num) : (a <=? zero)%num = true -> (a >? zero)%num = false.
Proof. intros H. num_cases. Qed.

(** C3.  [scaleVisemes] leaves the store alone and keeps the input
    sequence, the very same array, when the estimated or the actual
    duration is at most zero.  When both are positive it returns a
    sequence of freshly allocated events, one per input event, whose
    [start] and [duration] are the input values (a missing one counting as
    [0]) multiplied by [actualDuration / estimatedDuration]; every object
    of the store as it was, the events of the original sequence among
    them, is still there unchanged, and [visemeData] still names the
    original sequence. *)
Theorem scaleVisemes_rescales (actualDuration : num) (h : store) (c : lipsync) :
  (((estimatedDuration c <=? zero)%num = true \/ (actualDuration <=? zero)%num = true) ->
   exists c', scaleVisemes actualDuration h c = Some (h, c')
     /\ scaledVisemes c' = visemeData c
     /\ visemeData c' = visemeData c)
  /\
  ((estimatedDuration c >? zero)%num = true ->
   (actualDuration >? zero)%num = true ->
   Forall (fun l => is_Some (h !! l)) (visemeData c) ->
   let scale := (actualDuration / estimatedDuration c)%num in
   exists h' c', scaleVisemes actualDuration h c = Some (h', c')
     /\ visemeData c' = visemeData c
     /\ (forall l v, h !! l = Some v -> h' !! l = Some v)
     /\ Forall2 (fun l l' => (l' ∉ dom h)
           /\ exists v v', h !! l = Some v /\ h' !! l' = Some v'
                /\ v' !! "start" = Some ((v !! "start" || zero) * scale)%num
                /\ v' !! "duration" = Some ((v !! "duration" || zero) * scale)%num)
          (visemeData c) (scaledVisemes c')).
Proof.
  split.
  - intros Hle. eexists. split; [apply scaleVisemes_identity|split; reflexivity].
    destruct Hle as [H | H]; rewrite (not_positive _ H);
      [reflexivity | apply andb_false_r].
  - intros He Ha Hall scale.
    destruct (scaleVisemes_scaled actualDuration h c He Ha Hall)
      as (ls & h' & Hrun & Hsub & Hpairs).
    eexists h', _. split; [exact Hrun|]. split; [reflexivity|].
    split; [intros l v Hv; eapply lookup_weaken; eauto|].
    simpl. eapply Forall2_impl; [exact Hpairs|].
    intros l l' (Hfresh & v & Hv & Hv'). split; [exact Hfresh|].
    exists v, (scale_event scale v). repeat split; auto.
    + unfold scale_event. rewrite lookup_insert_ne by discriminate.
      apply lookup_insert_eq.
    + unfold scale_event. apply lookup_insert_eq.
Qed.

Lemma scaleVisemes_rescales_witness :
  (exists c', scaleVisemes zero scenario_store scenario_lipsync = Some (scenario_store, c')
     /\ scaledVisemes c' = visemeData scenario_lipsync
     /\ visemeData c' = visemeData scenario_lipsync)
  /\ (exists h' c', scaleVisemes (Fin 2) scenario_store scenario_lipsync = Some (h', c')
        /\ visemeData c' = visemeData scenario_lipsync
        /\ length (scaledVisemes c') = 2%nat).
Proof.
  split.
  - apply (proj1 (scaleVisemes_rescales zero scenario_store scenario_lipsync)).
    right. reflexivity.
  - destruct (proj2 (scaleVisemes_rescales (Fin 2) scenario_store scenario_lipsync))
      as (h' & c' & Hrun & Hvd & _ & Hpairs).
    + vm_compute. reflexivity.
    + reflexivity.
    + repeat constructor; eexists; vm_compute; reflexivity.
    + exists h', c'. split; [exact Hrun|]. split; [exact Hvd|].
      symmetry. exact (Forall2_length _ _ _ Hpairs).
Defined.

(** The end-to-end scenario of the specification: estimated duration 1,
    actual duration 2; the rescaled events run over [[0, 1)] and [[1, 2)]
    and the lookup at 1.2 returns category 5. *)
Example scenario_rescaled :
  (estimatedDuration scenario_lipsync =? Fin 1)%num = true
  /\ match scaleVisemes (Fin 2) scenario_store scenario_lipsync with
     | Some (h', c') =>
         match deref h' (scaledVisemes c') with
         | Some es =>
             map (fun v => (loop_start v =? Fin 0)%num) es = [true; false]
             /\ map (fun v => (loop_start v =? Fin 1)%num) es = [false; true]
             /\ map (fun v => (loop_end v =? Fin 1)%num) es = [true; false]
             /\ map (fun v => (loop_end v =? Fin 2)%num) es = [false; true]
             /\ map category es = [Fin 1; Fin 5]
             /\ getVisemeAtTime (Fin (12 # 10)) (Some es) = Found (Fin 5)
         | None => False
         end
     | None => False
     end.
Proof. vm_compute. repeat split. Qed.

(** C10.  Every field of an event other than [start] and [duration]
    reads the same in the event [scaleVisemes] puts at its place in the
    output sequence: present with the same value, or missing in both.  An
    explicit [end] is such a field, so it is not multiplied by the scale
    factor, and a rescaled event's [end] can differ from its rescaled
    [start + duration]: [event_with_end] has [end = start + duration], and
    rescaled by two it has not. *)
Theorem scaleVisemes_copies_other_fields
    (actualDuration : num) (h h' : store) (c c' : lipsync) :
  Forall (fun l => is_Some (h !! l)) (visemeData c) ->
  scaleVisemes actualDuration h c = Some (h', c') ->
  Forall2 (fun l l' => exists v v', h !! l = Some v /\ h' !! l' = Some v'
             /\ forall k, k <> "start" -> k <> "duration" -> v' !! k = v !! k)
          (visemeData c) (scaledVisemes c')
  /\ (Num.to_num (event_with_end !! "end")
        =? loop_start event_with_end + (event_with_end !! "duration" || zero))%num = true
  /\ scale_event (Fin 2) event_with_end !! "end" = event_with_end !! "end"
  /\ (Num.to_num (scale_event (Fin 2) event_with_end !! "end")
        =? loop_start (scale_event (Fin 2) event_with_end)
           + (scale_event (Fin 2) event_with_end !! "duration" || zero))%num = false.
Proof.
  intros Hall Hrun.
  split; [|vm_compute; repeat split].
  destruct ((estimatedDuration c >? zero)%num && (actualDuration >? zero)%num) eqn:Epos.
  - apply andb_prop in Epos as [He Ha].
    destruct (scaleVisemes_scaled actualDuration h c He Ha Hall)
      as (ls & h1 & Hrun1 & _ & Hpairs).
    rewrite Hrun1 in Hrun. injection Hrun as <- <-. simpl.
    eapply Forall2_impl; [exact Hpairs|].
    intros l l' (_ & v & Hv & Hv'). eexists v, _.
    split; [exact Hv|]. split; [exact Hv'|].
    intros k Hs Hd. unfold scale_event.
    rewrite !lookup_insert_ne by congruence. reflexivity.
  - rewrite (scaleVisemes_identity actualDuration h c Epos) in Hrun.
    injection Hrun as <- <-. simpl.
    apply Forall_Forall2_diag.
    eapply Forall_impl; [exact Hall|].
    intros l [v Hv]. exists v, v. auto.
Qed.

Lemma scaleVisemes_copies_other_fields_witness :
  exists h' c',
    scaleVisemes (Fin 2) scenario_store scenario_lipsync = Some (h', c')
    /\ Forall2 (fun l l' => exists v v', scenario_store !! l = Some v /\ h' !! l' = Some v'
                  /\ v' !! "viseme" = v !! "viseme" /\ v' !! "end" = v !! "end")
         (visemeData scenario_lipsync) (scaledVisemes c').
Proof.
  destruct (scaleVisemes (Fin 2) scenario_store scenario_lipsync)
    as [[h' c']|] eqn:E; [|vm_compute in E; discriminate E].
  exists h', c'. split; [reflexivity|].
  destruct (scaleVisemes_copies_other_fields (Fin 2) scenario_store h'
              scenario_lipsync c') as [Hpairs _].
  - repeat constructor; eexists; vm_compute; reflexivity.
  - exact E.
  - eapply Forall2_impl; [exact Hpairs|].
    intros l l' (v & v' & Hv & Hv' & Hk). exists v, v'.
    repeat split; auto; apply Hk; discriminate.
Defined.

(** ** The frame interpolator *)

Section Rounding.

Local Open Scope Q_scope.

Lemma Qfloor_unique (y : Q) (z : Z) :
  inject_Z z <= y -> y < inject_Z z + 1 -> Qfloor y = z.
Proof.
  intros Hlo Hhi.
  pose proof (Qfloor_le y) as H1. pose proof (Qlt_floor y) as H2.
  rewrite inject_Z_plus in H2. change (inject_Z 1) with 1 in H2.
  assert (Ha : (Qfloor y < z + 1)%Z).
  { rewrite Zlt_Qlt, inject_Z_plus. change (inject_Z 1) with 1. lra. }
  assert (Hb : (z < Qfloor y + 1)%Z).
  { rewrite Zlt_Qlt, inject_Z_plus. change (inject_Z 1) with 1. lra. }
  lia.
Qed.

Lemma round_ge (x : Q) (a : Z) : inject_Z a <= x -> (a <= Qfloor (x + (1 # 2)))%Z.
Proof.
  intros H. rewrite <- (Qfloor_Z a). apply Qfloor_resp_le. lra.
Qed.

Lemma round_le (x : Q) (b : Z) : x <= inject_Z b -> (Qfloor (x + (1 # 2)) <= b)%Z.
Proof.
  intros H.
  pose proof (Qfloor_resp_le (x + (1 # 2)) (inject_Z b + (1 # 2)) ltac:(lra)) as H2.
  rewrite (Qfloor_unique (inject_Z b + (1 # 2)) b) in H2 by lra.
  exact H2.
Qed.

Lemma easeQ_bounds (p : Q) : 0 <= p -> p < 1 -> 0 <= easeQ p <= 1.
Proof.
  intros H0 H1. unfold easeQ.
  change (inject_Z 2) with 2. change (inject_Z (-2)) with (-2).
  destruct (Num.Qltb p (1 # 2)) eqn:E.
  - apply Qltb_lt in E. split; nra.
  - apply Qltb_ge in E. unfold Qdiv. change (/ 2) with (1 # 2).
    set (u := -2 * p + 2).
    assert (Hu : 0 <= u <= 1) by (subst u; lra).
    split; nra.
Qed.

Lemma easeQ_mono (p1 p2 : Q) : 0 <= p1 -> p1 <= p2 -> p2 < 1 -> easeQ p1 <= easeQ p2.
Proof.
  intros H0 H12 H1. unfold easeQ.
  change (inject_Z 2) with 2. change (inject_Z (-2)) with (-2).
  destruct (Num.Qltb p1 (1 # 2)) eqn:E1; destruct (Num.Qltb p2 (1 # 2)) eqn:E2;
    num_bools.
  - nra.
  - unfold Qdiv. change (/ 2) with (1 # 2).
    set (u := -2 * p2 + 2).
    assert (Hu : 0 <= u <= 1) by (subst u; lra).
    nra.
  - lra.
  - unfold Qdiv. change (/ 2) with (1 # 2).
    set (u1 := -2 * p1 + 2). set (u2 := -2 * p2 + 2).
    assert (Hu : 0 <= u2 /\ u2 <= u1 /\ u1 <= 1) by (subst u1 u2; lra).
    nra.
Qed.

Lemma easeQ_zero (p : Q) : p == 0 -> easeQ p == 0.
Proof.
  intros H. unfold easeQ.
  destruct (Num.Qltb p (1 # 2)) eqn:E.
  - rewrite H. reflexivity.
  - apply Qltb_ge in E. rewrite H in E. lra.
Qed.

End Rounding.

Lemma of_Z_eqb (a b : Z) : (Num.of_Z a =? Num.of_Z b)%num = (a =? b)%Z.
Proof.
  simpl. destruct (a =? b)%Z eqn:E.
  - apply Z.eqb_eq in E. subst. apply Qeq_bool_iff. reflexivity.
  - destruct (Qeq_bool (inject_Z a) (inject_Z b)) eqn:E'; [|reflexivity].
    apply Qeq_bool_iff in E'. apply (proj1 (inject_Z_injective a b)) in E'.
    apply Z.eqb_neq in E. contradiction.
Qed.

(** Setting a new target starts a transition from the old one. *)
Lemma setTargetFrame_starts (this : FrameInterpolator) (P F : Z) (d t0 : Q) :
  targetFrame this = Num.of_Z P ->
  transitionDuration this = Fin d ->
  F <> P ->
  setTargetFrame (Num.of_Z F) (Fin t0) this =
    {| transitionDuration := Fin d; currentFrame := Num.of_Z P;
       targetFrame := Num.of_Z F; transitionStartTime := Fin t0;
       isTransitioning := true |}.
Proof.
  intros Htarget Hduration Hnew. unfold setTargetFrame.
  rewrite Htarget, Hduration, of_Z_eqb.
  destruct (F =? P)%Z eqn:E; [apply Z.eqb_eq in E; contradiction|].
  reflexivity.
Qed.

Section Transition.

(** A transition from frame [P] to frame [F] that started at [t0] and
    lasts [d]. *)
Variables (P F : Z) (d t0 : Q).
Hypothesis Hd : (0 < d)%Q.

Let started : FrameInterpolator :=
  {| transitionDuration := Fin d; currentFrame := Num.of_Z P;
     targetFrame := Num.of_Z F; transitionStartTime := Fin t0;
     isTransitioning := true |}.

Let arrived : FrameInterpolator :=
  {| transitionDuration := Fin d; currentFrame := Num.of_Z F;
     targetFrame := Num.of_Z F; transitionStartTime := Fin t0;
     isTransitioning := false |}.

Let progress_at (t : Q) : Q := ((t + - t0) / d)%Q.

Lemma d_nonzero : Qeq_bool d 0 = false.
Proof.
  destruct (Qeq_bool d 0) eqn:E; [|reflexivity].
  apply Qeq_bool_iff in E. lra.
Qed.

Lemma progress_bounds (t : Q) :
  ((t0 <= t -> 0 <= progress_at t)
   /\ (t < t0 + d -> progress_at t < 1)
   /\ (t0 + d <= t -> 1 <= progress_at t))%Q.
Proof.
  subst progress_at. cbv beta.
  assert (Hdd : (d * / d == 1)%Q) by (apply Qmult_inv_r; lra).
  unfold Qdiv.
  assert (Hinv : (0 < / d)%Q) by (apply Qinv_lt_0_compat; exact Hd).
  repeat split; intros H; nra.
Qed.

Lemma progress_mono (t1 t2 : Q) :
  (t1 <= t2 -> progress_at t1 <= progress_at t2)%Q.
Proof.
  subst progress_at. cbv beta. unfold Qdiv. intros H.
  assert (Hinv : (0 < / d)%Q) by (apply Qinv_lt_0_compat; exact Hd).
  nra.
Qed.

(** Before the transition is over a call rounds the eased blend and
    leaves the interpolator as it is. *)
Lemma getInterpolatedFrame_during (t : Q) :
  (t < t0 + d)%Q ->
  getInterpolatedFrame (Fin t) started = (Num.of_Z (frameQ P F (progress_at t)), started).
Proof.
  intros Hlt.
  destruct (progress_bounds t) as (_ & Hp1 & _). specialize (Hp1 Hlt).
  subst started. unfold getInterpolatedFrame. cbn [isTransitioning negb
    transitionStartTime transitionDuration targetFrame currentFrame].
  change (Fin t - Fin t0)%num with (Fin (t + - t0)).
  unfold Num.div. rewrite d_nonzero. fold (progress_at t).
  assert (Hmin : Num.min (Fin (progress_at t)) one = Fin (progress_at t)).
  { unfold Num.min, Num.lt, one, Num.one.
    destruct (Num.Qltb 1 (progress_at t)) eqn:E; [|reflexivity].
    apply Qltb_lt in E. lra. }
  rewrite Hmin.
  assert (Hge : (Fin (progress_at t) >=? one)%num = false).
  { unfold Num.ge, Num.le, one, Num.one. apply Qle_bool_gt. exact Hp1. }
  rewrite Hge.
  f_equal. unfold frameQ, easeQ, ease, Num.round, Num.lt.
  destruct (Num.Qltb (progress_at t) (1 # 2)); reflexivity.
Qed.

(** From the end of the transition on a call returns the target and
    leaves the interpolator idle. *)
Lemma getInterpolatedFrame_after (t : Q) :
  (t0 + d <= t)%Q ->
  getInterpolatedFrame (Fin t) started = (Num.of_Z F, arrived).
Proof.
  intros Hle.
  destruct (progress_bounds t) as (_ & _ & Hp1). specialize (Hp1 Hle).
  subst started. unfold getInterpolatedFrame. cbn [isTransitioning negb
    transitionStartTime transitionDuration targetFrame currentFrame].
  change (Fin t - Fin t0)%num with (Fin (t + - t0)).
  unfold Num.div. rewrite d_nonzero. fold (progress_at t).
  assert (Hge : (Num.min (Fin (progress_at t)) one >=? one)%num = true).
  { unfold Num.min, Num.lt, Num.ge, one, Num.one.
    destruct (Num.Qltb 1 (progress_at t)) eqn:E; simpl; apply Qle_bool_iff; lra. }
  rewrite Hge. reflexivity.
Qed.

Lemma getInterpolatedFrame_arrived (u : num) :
  getInterpolatedFrame u arrived = (Num.of_Z F, arrived).
Proof. reflexivity. Qed.

Lemma frameQ_between (p : Q) :
  (0 <= p)%Q -> (p < 1)%Q -> Z.min P F <= frameQ P F p <= Z.max P F.
Proof.
  intros H0 H1. pose proof (easeQ_bounds p H0 H1) as He. unfold frameQ.
  set (e := easeQ p) in *.
  destruct (Z.le_ge_cases P F) as [Hle | Hle].
  - rewrite Z.min_l, Z.max_r by lia.
    pose proof Hle as HQ. rewrite Zle_Qle in HQ.
    split; [apply round_ge | apply round_le]; nra.
  - rewrite Z.min_r, Z.max_l by lia.
    pose proof Hle as HQ. rewrite Zle_Qle in HQ.
    split; [apply round_ge | apply round_le]; nra.
Qed.

Lemma frameQ_mono (p1 p2 : Q) :
  (0 <= p1)%Q -> (p1 <= p2)%Q -> (p2 < 1)%Q ->
  (P <= F -> frameQ P F p1 <= frameQ P F p2)
  /\ (F <= P -> frameQ P F p2 <= frameQ P F p1).
Proof.
  intros H0 H12 H1. pose proof (easeQ_mono p1 p2 H0 H12 H1) as He.
  unfold frameQ. set (e1 := easeQ p1) in *. set (e2 := easeQ p2) in *.
  split; intros Hle; rewrite Zle_Qle in Hle; apply Qfloor_resp_le; nra.
Qed.

Lemma frameQ_start (p : Q) : (p == 0)%Q -> frameQ P F p = P.
Proof.
  intros H. pose proof (easeQ_zero p H) as He. unfold frameQ.
  set (e := easeQ p) in *. apply Qfloor_unique; nra.
Qed.

Lemma frame_during (t : Q) :
  (t0 <= t)%Q -> (t < t0 + d)%Q ->
  exists z, fst (getInterpolatedFrame (Fin t) started) = Num.of_Z z
    /\ Z.min P F <= z <= Z.max P F
    /\ z = frameQ P F (progress_at t).
Proof.
  intros Hge Hlt. rewrite (getInterpolatedFrame_during t Hlt).
  destruct (progress_bounds t) as (Hp0 & Hp1 & _).
  eexists. split; [reflexivity|]. split; [|reflexivity].
  apply frameQ_between; auto.
Qed.

Lemma frame_at_start :
  fst (getInterpolatedFrame (Fin t0) started) = Num.of_Z P.
Proof.
  rewrite (getInterpolatedFrame_during t0) by lra. simpl. f_equal.
  apply frameQ_start. subst progress_at. cbv beta. unfold Qdiv.
  ring.
Qed.

Lemma frames_monotone (t1 t2 : Q) :
  (t0 <= t1)%Q -> (t1 <= t2)%Q ->
  exists z1 z2,
    fst (getInterpolatedFrame (Fin t1) started) = Num.of_Z z1
    /\ fst (getInterpolatedFrame (Fin t2) started) = Num.of_Z z2
    /\ (P <= F -> P <= z1 <= z2 /\ z2 <= F)
    /\ (F <= P -> F <= z2 <= z1 /\ z1 <= P).
Proof.
  intros H1 H12.
  destruct (Qlt_le_dec t2 (t0 + d)) as [Hlt2 | Hge2].
  - destruct (frame_during t1) as (z1 & E1 & B1 & V1); [lra | lra |].
    destruct (frame_during t2) as (z2 & E2 & B2 & V2); [lra | lra |].
    exists z1, z2. split; [exact E1|]. split; [exact E2|].
    destruct (progress_bounds t1) as (Hp0 & _ & _).
    destruct (progress_bounds t2) as (_ & Hp1 & _).
    destruct (frameQ_mono (progress_at t1) (progress_at t2)) as [Hup Hdown];
      [apply Hp0; lra | apply progress_mono; lra | apply Hp1; lra |].
    rewrite <- V1, <- V2 in Hup, Hdown. lia.
  - rewrite (getInterpolatedFrame_after t2 Hge2).
    destruct (Qlt_le_dec t1 (t0 + d)) as [Hlt1 | Hge1].
    + destruct (frame_during t1) as (z1 & E1 & B1 & _); [lra | lra |].
      exists z1, F. split; [exact E1|]. split; [reflexivity|]. lia.
    + rewrite (getInterpolatedFrame_after t1 Hge1).
      exists F, F. split; [reflexivity|]. split; [reflexivity|]. lia.
Qed.

Lemma frames_at_arrived (ts : list Q) :
  frames_at (map Fin ts) arrived = map (fun _ => Num.of_Z F) ts.
Proof. induction ts as [|t rest IH]; simpl; [reflexivity|]. f_equal. exact IH. Qed.

Lemma frames_after (ts : list Q) :
  forall lo, (t0 + d <= lo)%Q -> ascending_from lo ts ->
  map (fun t => fst (getInterpolatedFrame (Fin t) started)) ts
  = map (fun _ => Num.of_Z F) ts.
Proof.
  induction ts as [|t rest IH]; intros lo Hlo Hasc; simpl; [reflexivity|].
  destruct Hasc as [Ht Hrest].
  rewrite (getInterpolatedFrame_after t) by lra. simpl. f_equal.
  apply (IH t); [lra | exact Hrest].
Qed.

(** Calls made one after the other at times in order return what a
    single call on the freshly started interpolator returns. *)
Lemma frames_at_started (ts : list Q) :
  forall lo, (t0 <= lo)%Q -> ascending_from lo ts ->
  frames_at (map Fin ts) started
  = map (fun t => fst (getInterpolatedFrame (Fin t) started)) ts.
Proof.
  induction ts as [|t rest IH]; intros lo Hlo Hasc; simpl; [reflexivity|].
  destruct Hasc as [Ht Hrest].
  destruct (Qlt_le_dec t (t0 + d)) as [Hlt | Hge].
  - rewrite (getInterpolatedFrame_during t Hlt). simpl. f_equal.
    apply (IH t); [lra | exact Hrest].
  - rewrite (getInterpolatedFrame_after t Hge). simpl. f_equal.
    rewrite frames_at_arrived. symmetry. apply (frames_after rest t); auto.
Qed.

End Transition.

(** C4.  Take an interpolator whose target is the integer frame [P] and
    whose transition duration [d] is positive, and set the target to a
    different integer frame [F] at time [t0].  Then
    [getInterpolatedFrame t0] returns [P], the frame the transition
    starts from; [getInterpolatedFrame t] returns exactly [F] for every
    [t >= t0 + d]; for every [t] strictly between it returns an integer
    between [P] and [F] inclusive; the frames returned at two times
    [t0 <= t1 <= t2] are in order on the way from [P] to [F], so the
    approach is monotone and never overshoots; and a run of calls at times
    in non-decreasing order from [t0] on returns these very frames. *)
Theorem interpolation_reaches_target
    (this : FrameInterpolator) (P F : Z) (d t0 : Q) :
  targetFrame this = Num.of_Z P ->
  transitionDuration this = Fin d ->
  (0 < d)%Q ->
  F <> P ->
  let started := setTargetFrame (Num.of_Z F) (Fin t0) this in
  let frame := fun t : Q => fst (getInterpolatedFrame (Fin t) started) in
  frame t0 = Num.of_Z P
  /\ (forall t, (t0 + d <= t)%Q -> frame t = Num.of_Z F)
  /\ (forall t, (t0 < t)%Q -> (t < t0 + d)%Q ->
        exists z, frame t = Num.of_Z z /\ Z.min P F <= z <= Z.max P F)
  /\ (forall t1 t2, (t0 <= t1)%Q -> (t1 <= t2)%Q ->
        exists z1 z2, frame t1 = Num.of_Z z1 /\ frame t2 = Num.of_Z z2
          /\ (P <= F -> P <= z1 <= z2 /\ z2 <= F)
          /\ (F <= P -> F <= z2 <= z1 /\ z1 <= P))
  /\ (forall ts, ascending_from t0 ts -> frames_at (map Fin ts) started = map frame ts).
Proof.
  intros Ht Hdur Hd Hne started frame. subst started frame. cbv beta.
  rewrite (setTargetFrame_starts this P F d t0 Ht Hdur Hne).
  split; [apply (frame_at_start P F d t0 Hd)|].
  split.
  { intros t Hle. rewrite (getInterpolatedFrame_after P F d t0 Hd t Hle). reflexivity. }
  split.
  { intros t Hlo Hhi.
    destruct (frame_during P F d t0 Hd t) as (z & Hz & Hb & _); [lra | lra |].
    exists z. auto. }
  split.
  { intros t1 t2 H1 H12. apply (frames_monotone P F d t0 Hd t1 t2 H1 H12). }
  intros ts Hasc.
  apply (frames_at_started P F d t0 Hd ts t0); [lra | exact Hasc].
Qed.

Lemma interpolation_reaches_target_witness :
  let started :=
    setTargetFrame (Num.of_Z 4) (Fin 1) (new_FrameInterpolator default_transitionDuration) in
  let frame := fun t : Q => fst (getInterpolatedFrame (Fin t) started) in
  frame 1%Q = Num.of_Z 1
  /\ frame (105 # 100) = Num.of_Z 4
  /\ frames_at (map Fin [1; 101 # 100; 102 # 100; 103 # 100; 104 # 100; 105 # 100; 2]%Q) started
     = map Num.of_Z [1; 1; 2; 3; 4; 4; 4].
Proof.
  intros started frame.
  destruct (interpolation_reaches_target
              (new_FrameInterpolator default_transitionDuration) 1 4 (5 # 100) 1)
    as (Hstart & Hend & _ & _ & Hrun).
  - reflexivity.
  - reflexivity.
  - reflexivity.
  - discriminate.
  - split; [exact Hstart|].
    split; [apply Hend; vm_compute; discriminate|].
    rewrite Hrun by (vm_compute; intuition discriminate).
    vm_compute. reflexivity.
Defined.

(** [reset] leaves the interpolator idle, and the next call returns the
    target whatever the time. *)
Lemma reset_idle (this : FrameInterpolator) (t : num) :
  isTransitioning (reset this) = false
  /\ getInterpolatedFrame t (reset this) = (targetFrame this, reset this).
Proof. split; reflexivity. Qed.

(** C5, amended.  In the transitioning state [getInterpolatedFrame]
    caps [progress = (now - transitionStartTime) / transitionDuration] at
    [1] from above and not at [0] from below: while [progress < 1], also
    when it is negative, the call rounds the blend at that very progress
    and leaves the state as it is, and from [progress >= 1] on it returns
    the target and goes idle.  Consequently the frame lies between
    [currentFrame] and [targetFrame] inclusive for every [now] that is not
    earlier than [transitionStartTime]. *)
Theorem progress_capped_above_only (C T : Z) (d t0 now : Q) :
  (0 < d)%Q ->
  let this :=
    {| transitionDuration := Fin d; currentFrame := Num.of_Z C;
       targetFrame := Num.of_Z T; transitionStartTime := Fin t0;
       isTransitioning := true |} in
  ((now < t0 + d)%Q ->
     getInterpolatedFrame (Fin now) this
     = (Num.of_Z (frameQ C T ((now + - t0) / d)), this))
  /\ ((t0 + d <= now)%Q ->
       fst (getInterpolatedFrame (Fin now) this) = Num.of_Z T
       /\ isTransitioning (snd (getInterpolatedFrame (Fin now) this)) = false)
  /\ ((t0 <= now)%Q ->
       exists z, fst (getInterpolatedFrame (Fin now) this) = Num.of_Z z
         /\ Z.min C T <= z <= Z.max C T).
Proof.
  intros Hd this. subst this.
  split; [intros Hlt; apply (getInterpolatedFrame_during C T d t0 Hd now Hlt)|].
  split.
  - intros Hge. rewrite (getInterpolatedFrame_after C T d t0 Hd now Hge).
    split; reflexivity.
  - intros Hge. destruct (Qlt_le_dec now (t0 + d)) as [Hlt | Hle].
    + destruct (frame_during C T d t0 Hd now Hge Hlt) as (z & Hz & Hb & _).
      exists z. auto.
    + rewrite (getInterpolatedFrame_after C T d t0 Hd now Hle).
      exists T. split; [reflexivity | lia].
Qed.

Lemma progress_capped_above_only_witness :
  getInterpolatedFrame (Fin (95 # 100))
    {| transitionDuration := Fin (5 # 100); currentFrame := Num.of_Z 1;
       targetFrame := Num.of_Z 3; transitionStartTime := Fin 1;
       isTransitioning := true |}
  = (Num.of_Z (frameQ 1 3 (((95 # 100) + - 1) / (5 # 100))),
     {| transitionDuration := Fin (5 # 100); currentFrame := Num.of_Z 1;
        targetFrame := Num.of_Z 3; transitionStartTime := Fin 1;
        isTransitioning := true |})
  /\ exists z,
       fst (getInterpolatedFrame (Fin (102 # 100))
              {| transitionDuration := Fin (5 # 100); currentFrame := Num.of_Z 1;
                 targetFrame := Num.of_Z 3; transitionStartTime := Fin 1;
                 isTransitioning := true |}) = Num.of_Z z
       /\ Z.min 1 3 <= z <= Z.max 1 3.
Proof.
  split.
  - apply (proj1 (progress_capped_above_only 1 3 (5 # 100) 1 (95 # 100) eq_refl)).
    reflexivity.
  - apply (proj2 (proj2 (progress_capped_above_only 1 3 (5 # 100) 1 (102 # 100) eq_refl))).
    vm_compute. discriminate.
Defined.

(** C5 as stated fails: there is no clamp at [0].  An interpolator on its
    way from frame [1] to frame [3] since [t = 1], asked at [t = 0.95],
    computes [progress = -1] and an eased value of [2], and returns frame
    [5], which is not between [1] and [3]. *)
Lemma interpolation_overshoots_before_start :
  let this :=
    setTargetFrame (Num.of_Z 3) (Fin 1) (new_FrameInterpolator default_transitionDuration) in
  isTransitioning this = true
  /\ currentFrame this = Num.of_Z 1
  /\ targetFrame this = Num.of_Z 3
  /\ (Num.min ((Fin (95 # 100) - transitionStartTime this) / transitionDuration this) one
       =? Fin (-1))%num = true
  /\ fst (getInterpolatedFrame (Fin (95 # 100)) this) = Num.of_Z 5.
Proof. vm_compute. repeat split. Qed.

(** ** Frame selection *)

Lemma getFrameForViseme_candidates
    (visemeIndex : Z) (vs : list event) (t : num) (m m' : gmap Z (list Z)) :
  candidateFrames visemeIndex m = candidateFrames visemeIndex m' ->
  getFrameForViseme visemeIndex vs t m = getFrameForViseme visemeIndex vs t m'.
Proof. intros H. unfold getFrameForViseme. rewrite H. reflexivity. Qed.

Lemma candidateFrames_insert (visemeIndex : Z) (fs : list Z) (m : gmap Z (list Z)) :
  candidateFrames visemeIndex (<[visemeIndex := fs]> m) = fs.
Proof. unfold candidateFrames. rewrite lookup_insert_eq. reflexivity. Qed.

Lemma cycle_index_one (q : Q) : cycle_index (Fin q) 1 = Some 0%nat.
Proof.
  unfold cycle_index. simpl Num.floor. unfold Num.of_Z.
  rewrite Z.rem_1_r. reflexivity.
Qed.

(** With the default list every finite time selects frame [1]. *)
Lemma default_frame (visemeIndex : Z) (vs : list event) (q : Q) (m : gmap Z (list Z)) :
  Forall (fun v => exists s, loop_start v = Fin s) vs ->
  candidateFrames visemeIndex m = [1] ->
  getFrameForViseme visemeIndex vs (Fin q) m = Some 1.
Proof.
  intros Hfin Hc. unfold getFrameForViseme. rewrite Hc. simpl.
  destruct (find_visemeData (Fin q) visemeIndex vs) as [v|] eqn:Ef; [|reflexivity].
  destruct (Num.truthy (Num.to_num (v !! "duration"))); [|reflexivity].
  apply find_some in Ef as [Hv _].
  rewrite Forall_forall in Hfin.
  destruct (Hfin v) as [s Hs]; [apply list_elem_of_In; exact Hv|].
  unfold loop_start in Hs. rewrite Hs. simpl Num.sub. simpl Num.mul.
  rewrite cycle_index_one. reflexivity.
Qed.

(** C7, amended.  [getFrameForViseme] takes the entry of [visemeIndex]
    in the frame map as its candidate list whenever there is one, an
    empty list included; it falls back to the entry of category [0] when
    the category has no entry, and to [[1]] when neither has one, and
    selects as if the map held that list for the category; a candidate
    list that is empty yields frame [1], and so does the default list at
    any finite time when the starts of the events are finite. *)
Theorem candidate_frames_fallback
    (visemeIndex : Z) (vs : list event) (t : num) (m : gmap Z (list Z)) :
  (forall fs, m !! visemeIndex = Some fs -> candidateFrames visemeIndex m = fs)
  /\ (forall fs, m !! visemeIndex = None -> m !! 0 = Some fs ->
        candidateFrames visemeIndex m = fs
        /\ getFrameForViseme visemeIndex vs t m
           = getFrameForViseme visemeIndex vs t (<[visemeIndex := fs]> m))
  /\ (m !! visemeIndex = None -> m !! 0 = None ->
        candidateFrames visemeIndex m = [1]
        /\ getFrameForViseme visemeIndex vs t m
           = getFrameForViseme visemeIndex vs t (<[visemeIndex := [1]]> m)
        /\ (forall q, t = Fin q ->
            Forall (fun v => exists s, loop_start v = Fin s) vs ->
            getFrameForViseme visemeIndex vs t m = Some 1))
  /\ (candidateFrames visemeIndex m = [] -> getFrameForViseme visemeIndex vs t m = Some 1).
Proof.
  split; [intros fs H; unfold candidateFrames; rewrite H; reflexivity|].
  split.
  { intros fs Hi H0.
    assert (Hc : candidateFrames visemeIndex m = fs)
      by (unfold candidateFrames; rewrite Hi, H0; reflexivity).
    split; [exact Hc|].
    apply getFrameForViseme_candidates. rewrite candidateFrames_insert. exact Hc. }
  split.
  { intros Hi H0.
    assert (Hc : candidateFrames visemeIndex m = [1])
      by (unfold candidateFrames; rewrite Hi, H0; reflexivity).
    split; [exact Hc|]. split.
    - apply getFrameForViseme_candidates. rewrite candidateFrames_insert. exact Hc.
    - intros q -> Hfin. apply default_frame; assumption. }
  intros Hc. unfold getFrameForViseme. rewrite Hc. reflexivity.
Qed.

Lemma candidate_frames_fallback_witness :
  getFrameForViseme 5 [mk_event 5 0 1] (Fin (3 # 10)) (<[0 := [2; 3; 4]]> ∅)
  = getFrameForViseme 5 [mk_event 5 0 1] (Fin (3 # 10)) (<[5 := [2; 3; 4]]> (<[0 := [2; 3; 4]]> ∅))
  /\ getFrameForViseme 5 [mk_event 5 0 1] (Fin (3 # 10)) ∅ = Some 1.
Proof.
  pose proof (candidate_frames_fallback 5 [mk_event 5 0 1] (Fin (3 # 10))
                (<[0 := [2; 3; 4]]> ∅)) as (_ & H0 & _).
  pose proof (candidate_frames_fallback 5 [mk_event 5 0 1] (Fin (3 # 10)) ∅)
    as (_ & _ & H1 & _).
  split.
  - apply (H0 [2; 3; 4]); reflexivity.
  - destruct H1 as (_ & _ & H1); [reflexivity | reflexivity |].
    apply (H1 (3 # 10)); [reflexivity|].
    repeat constructor. eexists. vm_compute. reflexivity.
Defined.

(** C7 as stated fails for an entry that is an empty list: with
    [{3: [], 0: [2, 3]}] the candidate list of category [3] is the empty
    entry itself and the frame is [1]; falling back to the frames of
    category [0], as happens once the entry is removed, gives frame [2]. *)
Lemma empty_entry_does_not_fall_back :
  empty_entry_map !! 3 = Some []
  /\ empty_entry_map !! 0 = Some [2; 3]
  /\ candidateFrames 3 empty_entry_map = []
  /\ claimed_candidates 3 empty_entry_map = [2; 3]
  /\ getFrameForViseme 3 [] zero empty_entry_map = Some 1
  /\ getFrameForViseme 3 [] zero (delete 3 empty_entry_map) = Some 2.
Proof. vm_compute. repeat split. Qed.

(** ** Missing fields and the explicit end *)

Lemma fill_lookup_ne (k k' : string) (v : event) : k <> k' -> fill k v !! k' = v !! k'.
Proof.
  intros Hne. unfold fill. destruct (v !! k); [reflexivity|].
  apply lookup_insert_ne. exact Hne.
Qed.

Lemma fill_lookup (k : string) (v : event) :
  fill k v !! k = Some (default zero (v !! k)).
Proof.
  unfold fill. destruct (v !! k) eqn:E; simpl; [exact E | apply lookup_insert_eq].
Qed.

Lemma or_else_default (o : option num) :
  (Some (default zero o) || zero)%num = (o || zero)%num.
Proof. destruct o; reflexivity. Qed.

Lemma fill_missing_start (v : event) :
  fill_missing v !! "start" = Some (default zero (v !! "start")).
Proof.
  unfold fill_missing. rewrite fill_lookup, fill_lookup_ne by discriminate. reflexivity.
Qed.

Lemma fill_missing_duration (v : event) :
  fill_missing v !! "duration" = Some (default zero (v !! "duration")).
Proof.
  unfold fill_missing. rewrite fill_lookup_ne by discriminate. apply fill_lookup.
Qed.

Lemma fill_missing_other (k : string) (v : event) :
  k <> "start" -> k <> "duration" -> fill_missing v !! k = v !! k.
Proof.
  intros Hs Hd. unfold fill_missing. rewrite !fill_lookup_ne by congruence. reflexivity.
Qed.

Lemma fill_missing_loop_start (v : event) : loop_start (fill_missing v) = loop_start v.
Proof. unfold loop_start. rewrite fill_missing_start. apply or_else_default. Qed.

Lemma fill_missing_loop_end (v : event) : loop_end (fill_missing v) = loop_end v.
Proof.
  unfold loop_end. rewrite fill_missing_loop_start, fill_missing_duration,
    or_else_default, fill_missing_other by discriminate. reflexivity.
Qed.

Lemma fill_missing_in_interval (t : num) (v : event) :
  in_interval t (fill_missing v) = in_interval t v.
Proof.
  unfold in_interval. rewrite fill_missing_loop_start, fill_missing_loop_end. reflexivity.
Qed.

Lemma fill_missing_category (v : event) :
  (fill_missing v !! "viseme" || zero)%num = (v !! "viseme" || zero)%num.
Proof. rewrite fill_missing_other by discriminate. reflexivity. Qed.

Lemma fill_missing_linear (t : num) (vs : list event) :
  linear_loop t (fill_missing <$> vs) = linear_loop t vs.
Proof.
  induction vs as [|v rest IH]; [reflexivity|].
  rewrite fmap_cons. cbn [linear_loop].
  rewrite fill_missing_in_interval, fill_missing_category, IH. reflexivity.
Qed.

Lemma fill_missing_binary (t : num) (vs : list event) :
  forall fuel left right,
  binary_loop fuel t (fill_missing <$> vs) left right = binary_loop fuel t vs left right.
Proof.
  induction fuel as [|fuel IH]; intros left right; simpl; [reflexivity|].
  destruct (left <=? right); [|reflexivity].
  destruct (0 <=? (left + right) / 2); [|reflexivity].
  rewrite list_lookup_fmap.
  destruct (vs !! Z.to_nat ((left + right) / 2)) as [v|]; simpl; [|reflexivity].
  rewrite fill_missing_in_interval, fill_missing_category, fill_missing_loop_start, !IH.
  reflexivity.
Qed.

(** Filling in the missing fields changes nothing as long as the last
    event has a [start] of its own. *)
Lemma fill_missing_agrees (t : num) (vs : list event) :
  (forall v, last vs = Some v -> is_Some (v !! "start")) ->
  getVisemeAtTime t (Some (fill_missing <$> vs)) = getVisemeAtTime t (Some vs).
Proof.
  intros Hlast. destruct vs as [|a rest]; [reflexivity|].
  set (vs := a :: rest) in *.
  assert (Hpast : past_end t (fill_missing <$> vs) = past_end t vs).
  { unfold past_end. rewrite fmap_last.
    destruct (last vs) as [v|] eqn:El; simpl; [|reflexivity].
    destruct (Hlast v eq_refl) as [s Hs].
    rewrite fill_missing_start, fill_missing_duration, or_else_default,
      !fill_missing_other by discriminate.
    rewrite Hs. reflexivity. }
  change (getVisemeAtTime t (Some (fill_missing <$> vs)))
    with (if (length (fill_missing <$> vs) <? 50)%nat
          then lookup_linear t (fill_missing <$> vs)
          else lookup_binary t (fill_missing <$> vs)).
  change (getVisemeAtTime t (Some vs))
    with (if (length vs <? 50)%nat then lookup_linear t vs else lookup_binary t vs).
  unfold lookup_linear, lookup_binary, or_past_end.
  rewrite length_fmap, fill_missing_linear, fill_missing_binary, Hpast. reflexivity.
Qed.

(** C8: the code after the loops reads [lastViseme.start] without the
    default the loops use.  For the single event [{viseme: 3, duration: 1}]
    and [t = -1] the lookup compares [t] with [NaN] and returns [0]; on the
    same event with [start: 0] filled in it returns [3].  The same happens
    at [t = 0.5] on fifty events of which only the last lacks its [start]. *)
Lemma lookup_misses_default_start :
  missing_start !! "start" = None
  /\ fill_missing missing_start !! "start" = Some zero
  /\ getVisemeAtTime (Fin (-1)) (Some [missing_start]) = Found zero
  /\ getVisemeAtTime (Fin (-1)) (Some (fill_missing <$> [missing_start])) = Found (Fin 3)
  /\ getVisemeAtTime (Fin (1 # 2)) (Some unsorted_missing_start) = Found zero
  /\ getVisemeAtTime (Fin (1 # 2)) (Some (fill_missing <$> unsorted_missing_start))
     = Found (Fin 3).
Proof. vm_compute. repeat split. Qed.

(** ** An explicit [end] field *)











(** ** The playback session *)

Lemma silent_only_current (s : session) : silent s -> only_current_plays s.
Proof. intros H a au Ha Hp. rewrite (H a au Ha) in Hp. discriminate. Qed.

(** A step that keeps [audioRef] and starts no element keeps the
    invariant. *)
Lemma only_current_kept (s s' : session) :
  audioRef s' = audioRef s ->
  (forall a au', audios s' !! a = Some au' -> playing au' = true ->
     exists au, audios s !! a = Some au /\ playing au = true) ->
  only_current_plays s -> only_current_plays s'.
Proof.
  intros Href Hsame Hinv a au' Ha Hp. rewrite Href.
  destruct (Hsame a au' Ha Hp) as (au & Hau & Hpl). eauto.
Qed.

Lemma alter_quiet (f : audio -> audio) (b : loc) (m : gmap loc audio) :
  (forall au, playing (f au) = true -> playing au = true) ->
  forall a au', alter f b m !! a = Some au' -> playing au' = true ->
  exists au, m !! a = Some au /\ playing au = true.
Proof.
  intros Hf a au' Ha Hp.
  destruct (decide (b = a)) as [->|Hne].
  - rewrite lookup_alter_eq in Ha.
    destruct (m !! a) as [au|]; simpl in Ha; [|discriminate].
    injection Ha as <-. eauto.
  - rewrite lookup_alter_ne in Ha by exact Hne. eauto.
Qed.

Lemma stop_playback_audioRef (s : session) : audioRef (stop_playback s) = None.
Proof.
  unfold stop_playback.
  destruct (audioRef s) eqn:E; simpl; destruct (animationRef s); simpl; auto.
Qed.

Lemma stop_playback_audios (s : session) :
  audios (stop_playback s) =
    match audioRef s with
    | Some a => alter unload a (audios s)
    | None => audios s
    end.
Proof.
  unfold stop_playback.
  destruct (audioRef s); simpl; destruct (animationRef s); reflexivity.
Qed.

Lemma stop_playback_silent (s : session) :
  only_current_plays s -> silent (stop_playback s).
Proof.
  intros Hinv a au Ha. rewrite stop_playback_audios in Ha.
  destruct (playing au) eqn:Hp; [exfalso|reflexivity].
  destruct (audioRef s) as [b|] eqn:Eref.
  - destruct (decide (b = a)) as [->|Hne].
    + rewrite lookup_alter_eq in Ha.
      destruct (audios s !! a); simpl in Ha; [|discriminate].
      injection Ha as <-. discriminate Hp.
    + rewrite lookup_alter_ne in Ha by exact Hne.
      pose proof (Hinv a au Ha Hp) as H. congruence.
  - pose proof (Hinv a au Ha Hp) as H. congruence.
Qed.

Lemma speechEffect_only_current (sp : option speech) (s : session) :
  only_current_plays s -> only_current_plays (fst (speechEffect sp s)).
Proof.
  intros Hinv. unfold speechEffect.
  destruct sp as [sp|]; [|exact Hinv].
  destruct (isPlayingRef s); [exact Hinv|].
  destruct (falsy_string (audioData sp)); [exact Hinv|].
  apply silent_only_current. intros a au Ha. simpl in Ha.
  set (s1 := stop_playback s) in *.
  destruct (decide (fresh (dom (audios s1)) = a)) as [Heq|Hne].
  - rewrite Heq, lookup_insert_eq in Ha. injection Ha as <-. reflexivity.
  - rewrite lookup_insert_ne in Ha by exact Hne.
    exact (stop_playback_silent s Hinv a au Ha).
Qed.

Lemma cleanup_only_current (s : session) :
  only_current_plays s -> only_current_plays (cleanup s).
Proof.
  intros Hinv. apply silent_only_current. intros a au Ha.
  exact (stop_playback_silent s Hinv a au Ha).
Qed.

Lemma animate_refs (scaled : list event) (lastVisemeIndex : num) (s : session) :
  audioRef (animate scaled lastVisemeIndex s) = audioRef s
  /\ audios (animate scaled lastVisemeIndex s) = audios s.
Proof.
  unfold animate. destruct (audioRef s) as [a|] eqn:E; [|auto].
  destruct (audios s !! a) as [au|]; [|auto].
  destruct (negb (paused au) && negb (ended au)); simpl; auto.
Qed.

Lemma run_only_current (act : action) (s : session) :
  only_current_plays s -> only_current_plays (run act s).
Proof.
  intros Hinv.
  assert (Hsame : forall s', audioRef s' = audioRef s -> audios s' = audios s ->
                             only_current_plays s').
  { intros s' Href Haud. apply (only_current_kept s s' Href); [|exact Hinv].
    intros a au' Ha Hp. rewrite Haud in Ha. eauto. }
  destruct act as [sp| |a|a|a dur|a|a|a|a t| |scaled lastVisemeIndex]; simpl.
  - apply speechEffect_only_current. exact Hinv.
  - apply cleanup_only_current. exact Hinv.
  - destruct (decide (audioRef s = Some a)) as [Href|_]; [|exact Hinv].
    intros b bu Hb Hp. simpl in *.
    destruct (decide (a = b)) as [->|Hne]; [exact Href|].
    rewrite lookup_alter_ne in Hb by exact Hne. exact (Hinv b bu Hb Hp).
  - apply Hsame; reflexivity.
  - apply (only_current_kept s); [reflexivity| |exact Hinv].
    simpl. apply alter_quiet. intros au H. exact H.
  - apply Hsame; reflexivity.
  - apply (only_current_kept s); [reflexivity| |exact Hinv].
    simpl. apply alter_quiet. intros au H.
    unfold playing, finish in H. simpl in H. rewrite andb_false_r in H. discriminate.
  - apply Hsame; reflexivity.
  - apply (only_current_kept s); [reflexivity| |exact Hinv].
    simpl. apply alter_quiet. intros au H. destruct (paused au); exact H.
  - destruct (audioRef s) eqn:Eref; [|exact Hinv].
    apply Hsame; [exact Eref | reflexivity].
  - destruct (animate_refs scaled lastVisemeIndex s) as [Href Haud].
    apply Hsame; assumption.
Qed.

Lemma run_all_only_current (acts : list action) :
  forall s, only_current_plays s -> only_current_plays (run_all acts s).
Proof.
  unfold run_all.
  induction acts as [|act rest IH]; intros s Hinv; simpl; [exact Hinv|].
  apply IH. apply run_only_current. exact Hinv.
Qed.

Lemma initial_only_current : only_current_plays initial_session.
Proof. intros a au Ha. simpl in Ha. rewrite lookup_empty in Ha. discriminate. Qed.

Lemma stop_playback_keeps (s : session) (a : loc) (au : audio) :
  audios s !! a = Some au -> exists au', audios (stop_playback s) !! a = Some au'.
Proof.
  intros Ha. rewrite stop_playback_audios.
  destruct (audioRef s) as [b|]; [|eauto].
  destruct (decide (b = a)) as [->|Hne].
  - rewrite lookup_alter_eq, Ha. simpl. eauto.
  - rewrite lookup_alter_ne by exact Hne. eauto.
Qed.

Lemma stop_playback_idle (s : session) :
  audioRef s = None -> animationRef s = None -> stop_playback s = s.
Proof. intros Ha Hn. unfold stop_playback. rewrite Ha, Hn. reflexivity. Qed.

Lemma cleanup_refs (s : session) :
  isPlayingRef (cleanup s) = false
  /\ audioRef (cleanup s) = None
  /\ animationRef (cleanup s) = None
  /\ audios (cleanup s) = audios (stop_playback s).
Proof.
  unfold cleanup. cbn [isPlayingRef audioRef animationRef audios].
  rewrite stop_playback_audioRef. repeat split.
  unfold stop_playback.
  destruct (audioRef s); simpl; destruct (animationRef s) eqn:E; simpl;
    try rewrite E; reflexivity.
Qed.

(** C6, amended.  When the effect body runs for a new utterance while
    [isPlayingRef] is set, it returns at once without a cleanup function
    and leaves the whole session as it was: the audio element and what it
    plays, the animation handle, the published viseme, progress and
    speaking state.  Whatever the order in which the effect, its cleanup,
    the timers and the audio events run, at most one audio element plays
    at a time, the one [audioRef] holds.  A request that arrives as a
    change of [currentSpeech] after a run of the effect that returned its
    cleanup does not find the guard set: the cleanup runs first, stops
    every element and clears [isPlayingRef], and the request is accepted
    with a new element. *)
Theorem guard_drops_overlapping_request :
  (forall (request : speech) (s : session),
     isPlayingRef s = true ->
     speechEffect (Some request) s = (s, false)
     /\ speech_changed (Some request) false s = (s, false)
     /\ run (RunEffect (Some request)) s = s)
  /\ (forall (acts : list action) (a b : loc) (au bu : audio),
        let s := run_all acts initial_session in
        audios s !! a = Some au -> playing au = true ->
        audios s !! b = Some bu -> playing bu = true ->
        a = b /\ audioRef s = Some a)
  /\ (forall (acts : list action) (request : speech),
        falsy_string (audioData request) = false ->
        let s := run_all acts initial_session in
        let r := speech_changed (Some request) true s in
        snd r = true
        /\ isPlayingRef (cleanup s) = false
        /\ (forall a au, audios s !! a = Some au ->
              exists au', audios (fst r) !! a = Some au' /\ playing au' = false)
        /\ (exists a, audioRef (fst r) = Some a /\ audios s !! a = None)).
Proof.
  split; [|split].
  - intros request s Hguard.
    unfold speech_changed, run, speechEffect. rewrite Hguard. auto.
  - intros acts a b au bu s Ha Hpa Hb Hpb.
    pose proof (run_all_only_current acts initial_session initial_only_current) as Hinv.
    fold s in Hinv.
    pose proof (Hinv a au Ha Hpa) as Hra. pose proof (Hinv b bu Hb Hpb) as Hrb.
    split; [congruence | exact Hra].
  - intros acts request Haudio s r.
    pose proof (run_all_only_current acts initial_session initial_only_current) as Hinv.
    fold s in Hinv.
    destruct (cleanup_refs s) as (Hflag & Href & Hanim & Haud).
    assert (Hr : r = ({| audioRef := Some (fresh (dom (audios (cleanup s))));
                         animationRef := None; isPlayingRef := false;
                         visemeIndex := visemeIndex (cleanup s);
                         progress := progress (cleanup s);
                         audioTime := audioTime (cleanup s);
                         audioDuration := audioDuration (cleanup s);
                         isSpeaking := isSpeaking (cleanup s);
                         audios := <[fresh (dom (audios (cleanup s))) :=
                                      new_Audio ("data:audio/mp3;base64,"
                                                 ++ default "" (audioData request))]>
                                     (audios (cleanup s));
                         nextFrameRequest := nextFrameRequest (cleanup s) |}, true)).
    { subst r. unfold speech_changed, speechEffect.
      rewrite Hflag, Haudio, (stop_playback_idle (cleanup s) Href Hanim), Hanim, Hflag.
      reflexivity. }
    rewrite Hr. simpl fst. simpl snd. cbn [audios audioRef].
    set (fresh_a := fresh (dom (audios (cleanup s)))).
    assert (Hfresh : audios (cleanup s) !! fresh_a = None).
    { apply not_elem_of_dom. apply is_fresh. }
    split; [reflexivity|]. split; [exact Hflag|]. split.
    + intros a au Ha.
      destruct (stop_playback_keeps s a au Ha) as [au' Hau'].
      exists au'. rewrite <- Haud in Hau'.
      assert (Hne : fresh_a <> a) by congruence.
      rewrite lookup_insert_ne by exact Hne. split; [exact Hau'|].
      rewrite Haud in Hau'. exact (stop_playback_silent s Hinv a au' Hau').
    + exists fresh_a. split; [reflexivity|].
      destruct (audios s !! fresh_a) as [au|] eqn:E; [|reflexivity].
      destruct (stop_playback_keeps s fresh_a au E) as [au' Hau'].
      rewrite <- Haud in Hau'. congruence.
Qed.

Lemma guard_drops_overlapping_request_witness :
  isPlayingRef playing_session = true
  /\ (playing <$> audios playing_session !! 0%nat) = Some true
  /\ speechEffect (Some sample_speech) playing_session = (playing_session, false)
  /\ audioRef playing_session = Some 0%nat
  /\ snd (speech_changed (Some sample_speech) true playing_session) = true.
Proof.
  destruct guard_drops_overlapping_request as (Hdrop & Hone & Hnext).
  assert (Hflag : isPlayingRef playing_session = true) by reflexivity.
  assert (Hplays : audios playing_session !! 0%nat
                   = Some (start_playing (new_Audio "data:audio/mp3;base64,AAAA")))
    by (vm_compute; reflexivity).
  split; [exact Hflag|].
  split; [rewrite Hplays; reflexivity|].
  split; [apply (Hdrop sample_speech playing_session Hflag)|].
  split.
  - apply (Hone [RunEffect (Some sample_speech); PlayTimer 0%nat; OnPlay 0%nat]
             0%nat 0%nat _ _ Hplays eq_refl Hplays eq_refl).
  - apply (Hnext [RunEffect (Some sample_speech); PlayTimer 0%nat; OnPlay 0%nat]
             sample_speech eq_refl).
Defined.

(** C6 as stated fails.  [playing_session] is the session after the
    effect has run for a first utterance, returned its cleanup, and the
    element it created has started playing: [isPlayingRef] is set.  When a
    second request arrives, React runs that cleanup and then the effect:
    the request is accepted, a second element is created and put in
    [audioRef], and the first one is stopped and unloaded. *)
Lemma new_request_interrupts_playback :
  isPlayingRef playing_session = true
  /\ audioRef playing_session = Some 0%nat
  /\ (playing <$> audios playing_session !! 0%nat) = Some true
  /\ isSpeaking playing_session = true
  /\ snd (speech_changed (Some sample_speech) true playing_session) = true
  /\ audioRef (fst (speech_changed (Some sample_speech) true playing_session)) = Some 1%nat
  /\ (playing <$> audios (fst (speech_changed (Some sample_speech) true playing_session)) !! 0%nat)
     = Some false
  /\ (src <$> audios (fst (speech_changed (Some sample_speech) true playing_session)) !! 0%nat)
     = Some ""
  /\ isSpeaking (fst (speech_changed (Some sample_speech) true playing_session)) = false.
Proof. vm_compute. repeat split. Qed.

(** * Further properties of the lookup *)

(** X1.  [getVisemeAtTime] returns a category on every input, and never
    one of its own making: the result is [0] or the category of an event
    of the sequence. *)
Theorem lookup_returns_known_category (t : num) (visemeSequence : option (list event)) :
  exists c, getVisemeAtTime t visemeSequence = Found c
    /\ (c = zero
        \/ exists vs v, visemeSequence = Some vs /\ v ∈ vs /\ c = category v).
Proof.
  destruct visemeSequence as [[|a rest]|]; simpl; eauto.
  set (vs := a :: rest).
  change (S (length rest)) with (length vs).
  assert (Hpast : exists c, past_end t vs = Found c
                    /\ (c = zero \/ exists v, v ∈ vs /\ c = category v)).
  { unfold past_end. destruct (last vs) as [final|] eqn:El;
      [|apply last_None in El; discriminate].
    eexists. split; [reflexivity|].
    destruct (t <? _)%num; [right | left; reflexivity].
    exists final. split; [|reflexivity].
    rewrite last_lookup in El. apply list_elem_of_lookup. eauto. }
  destruct Hpast as (cp & Hcp & Hknown).
  assert (Hwrap : forall r,
            (r = Missed \/ exists v, v ∈ vs /\ r = Found (category v)) ->
            exists c, or_past_end r t vs = Found c
              /\ (c = zero \/ exists l v, Some vs = Some l /\ v ∈ l /\ c = category v)).
  { intros r [-> | (v & Hv & ->)]; simpl.
    - exists cp. split; [exact Hcp|].
      destruct Hknown as [-> | (v & Hv & ->)]; [left; reflexivity|].
      right. exists vs, v. auto.
    - eexists. split; [reflexivity|]. right. exists vs, v. auto. }
  destruct (length vs <? 50)%nat.
  - apply Hwrap.
    destruct (linear_loop_returns t vs) as [H | [c H]]; [left; exact H|].
    right. destruct (linear_loop_found t vs c H) as (v & Hv & _ & ->). eauto.
  - apply Hwrap.
    destruct (binary_loop_returns t vs (length vs) 0 (Z.of_nat (length vs) - 1))
      as [H | (j & v & Hj & _ & H)]; try lia; [left; exact H|].
    right. exists v. split; [apply list_elem_of_lookup; eauto | exact H].
Qed.

(** A window narrower than [2 ^ fuel] is searched within [fuel] rounds. *)
Lemma binary_loop_log (t : num) (vs : list event) :
  forall fuel fuel' left right,
  right - left + 1 < 2 ^ Z.of_nat fuel -> right - left < Z.of_nat fuel' ->
  binary_loop fuel t vs left right = binary_loop fuel' t vs left right.
Proof.
  induction fuel as [|fuel IH]; intros fuel' left right Hw Hf.
  - change (2 ^ Z.of_nat 0) with 1 in Hw.
    destruct fuel'; simpl; destruct (left <=? right) eqn:E; try reflexivity;
      apply Z.leb_le in E; lia.
  - rewrite Nat2Z.inj_succ, Z.pow_succ_r in Hw by lia.
    destruct fuel' as [|fuel']; simpl.
    + destruct (left <=? right) eqn:E; [apply Z.leb_le in E; lia | reflexivity].
    + destruct (left <=? right) eqn:E; [|reflexivity].
      apply Z.leb_le in E.
      pose proof (Z.div_mod (left + right) 2 ltac:(lia)) as Hdm.
      pose proof (Z.mod_pos_bound (left + right) 2 ltac:(lia)) as Hmod.
      set (mid := (left + right) / 2) in *.
      destruct (if 0 <=? mid then vs !! Z.to_nat mid else None) as [v|]; [|reflexivity].
      destruct (in_interval t v); [reflexivity|].
      destruct (t <? loop_start v)%num; apply IH; lia.
Qed.

(** X2.  The binary search is logarithmic: on a sequence of fewer than
    [2 ^ k] events the loop returns within [k] rounds, with the result of
    the loop run to its end. *)
Theorem binary_search_logarithmic (t : num) (vs : list event) (k : nat) :
  Z.of_nat (length vs) < 2 ^ Z.of_nat k ->
  binary_loop k t vs 0 (Z.of_nat (length vs) - 1)
  = binary_loop (length vs) t vs 0 (Z.of_nat (length vs) - 1)
  /\ binary_loop k t vs 0 (Z.of_nat (length vs) - 1) <> OutOfFuel
  /\ binary_loop k t vs 0 (Z.of_nat (length vs) - 1) <> TypeError.
Proof.
  intros Hk.
  assert (Heq : binary_loop k t vs 0 (Z.of_nat (length vs) - 1)
                = binary_loop (length vs) t vs 0 (Z.of_nat (length vs) - 1))
    by (apply binary_loop_log; lia).
  split; [exact Heq|]. rewrite Heq.
  destruct (binary_loop_returns t vs (length vs) 0 (Z.of_nat (length vs) - 1))
    as [-> | (j & v & _ & _ & ->)]; try lia; split; discriminate.
Qed.

Lemma binary_search_logarithmic_witness :
  binary_loop 6 (Fin (61 # 2)) back_to_back 0 (Z.of_nat (length back_to_back) - 1)
  = binary_loop (length back_to_back) (Fin (61 # 2)) back_to_back 0
      (Z.of_nat (length back_to_back) - 1)
  /\ binary_loop 6 (Fin (61 # 2)) back_to_back 0 (Z.of_nat (length back_to_back) - 1)
     <> OutOfFuel
  /\ binary_loop 6 (Fin (61 # 2)) back_to_back 0 (Z.of_nat (length back_to_back) - 1)
     <> TypeError.
Proof.
  apply (binary_search_logarithmic (Fin (61 # 2)) back_to_back 6).
  vm_compute. reflexivity.
Defined.

(** [lastEnd] is never later than the end the loops compute. *)
Lemma lastEnd_not_later (t : num) (v : event) :
  (t >=? loop_end v)%num = true -> (t <? lastEnd_of v)%num = false.
Proof.
  unfold lastEnd_of, loop_end, loop_start.
  generalize (v !! "duration" || zero)%num as d.
  unfold Num.or_else, Num.to_num.
  intros d H.
  destruct (v !! "end") as [e|]; [destruct (Num.truthy e) eqn:Ee|].
  1: solve [num_cases].
  all: destruct (v !! "start") as [s|]; [destruct (Num.truthy s) eqn:Es|].
  all: try solve [num_cases].
  all: destruct s; simpl in Es; try discriminate;
    try (apply negb_false_iff in Es; apply Qeq_bool_iff in Es); num_cases.
Qed.

(** X3.  Outside every interval the lookup decides by the last event
    alone: while [t] is before [lastEnd] it returns the category of the
    last event, in a gap between two events and before the first one
    starts as well, and otherwise [0]. *)
Theorem lookup_outside_intervals (t : num) (vs : list event) (final : event) :
  existsb (in_interval t) vs = false ->
  last vs = Some final ->
  getVisemeAtTime t (Some vs)
  = Found (if (t <? lastEnd_of final)%num then category final else zero).
Proof.
  intros Hno Hlast.
  destruct (loops_miss t vs Hno) as [Hlin Hbin].
  assert (Hpast : past_end t vs
                  = Found (if (t <? lastEnd_of final)%num then category final else zero)).
  { unfold past_end. rewrite Hlast. reflexivity. }
  destruct vs as [|a rest]; [discriminate|].
  unfold getVisemeAtTime, lookup_linear, lookup_binary.
  destruct (length (a :: rest) <? 50)%nat; [rewrite Hlin | rewrite Hbin]; exact Hpast.
Qed.

Lemma lookup_outside_intervals_witness :
  getVisemeAtTime (Fin (3 # 4)) (Some [mk_event 1 0 (1 # 2); mk_event 5 1 (1 # 2)])
  = Found (if (Fin (3 # 4) <? lastEnd_of (mk_event 5 1 (1 # 2)))%num
           then category (mk_event 5 1 (1 # 2)) else zero).
Proof.
  apply (lookup_outside_intervals (Fin (3 # 4))
           [mk_event 1 0 (1 # 2); mk_event 5 1 (1 # 2)] (mk_event 5 1 (1 # 2)));
    reflexivity.
Defined.

(** X4.  Once every event has ended the lookup returns silence, whatever
    the order of the events and whichever strategy runs. *)
Theorem lookup_past_end_is_silence (t : num) (vs : list event) :
  (forall v, v ∈ vs -> (t >=? loop_end v)%num = true) ->
  getVisemeAtTime t (Some vs) = Found zero.
Proof.
  intros Hall.
  destruct vs as [|a rest]; [reflexivity|].
  set (vs := a :: rest) in *.
  assert (Hno : existsb (in_interval t) vs = false).
  { destruct (existsb (in_interval t) vs) eqn:E; [|reflexivity].
    apply existsb_exists in E as (v & Hv & Hin).
    apply list_elem_of_In in Hv. specialize (Hall v Hv).
    apply andb_prop in Hin as [_ Hlt].
    exfalso. exact (num_lt_not_le _ _ Hlt Hall). }
  destruct (last vs) as [final|] eqn:El; [|apply last_None in El; discriminate].
  rewrite (lookup_outside_intervals t vs final Hno El).
  rewrite lastEnd_not_later; [reflexivity|].
  apply Hall. rewrite last_lookup in El. apply list_elem_of_lookup. eauto.
Qed.

Lemma lookup_past_end_is_silence_witness :
  getVisemeAtTime (Fin 2) (Some [mk_event 5 1 (1 # 2); mk_event 1 0 (1 # 2)]) = Found zero.
Proof.
  apply (lookup_past_end_is_silence (Fin 2) [mk_event 5 1 (1 # 2); mk_event 1 0 (1 # 2)]).
  intros v Hv.
  apply elem_of_cons in Hv as [-> | Hv]; [reflexivity|].
  apply list_elem_of_singleton in Hv as ->. reflexivity.
Defined.

Lemma linear_loop_missed (t : num) (vs : list event) :
  linear_loop t vs = Missed -> forall v, v ∈ vs -> in_interval t v = false.
Proof.
  induction vs as [|a rest IH]; simpl; intros H v Hv; [inversion Hv|].
  destruct (in_interval t a) eqn:E; [discriminate|].
  apply elem_of_cons in Hv as [-> | Hv]; [exact E | exact (IH H v Hv)].
Qed.

(** At a time that is not negative and outside the interval of the event,
    [lastEnd] decides as the end of the loops does. *)
Lemma lastEnd_as_loop_end (t : num) (v : event) :
  in_interval t v = false -> (t >=? zero)%num = true ->
  (t <? lastEnd_of v)%num = (t <? loop_end v)%num.
Proof.
  unfold in_interval, lastEnd_of, loop_end, loop_start.
  generalize (v !! "duration" || zero)%num as d.
  unfold Num.or_else, Num.to_num.
  intros d Hin Ht.
  destruct (v !! "end") as [e|]; [destruct (Num.truthy e); [reflexivity|]|].
  all: destruct (v !! "start") as [s|]; [destruct (Num.truthy s) eqn:Es|].
  all: try reflexivity.
  all: rewrite Ht in Hin; cbn [andb] in Hin; rewrite Hin.
  all: try (destruct s; simpl in Es; try discriminate;
            try (apply negb_false_iff in Es; apply Qeq_bool_iff in Es)).
  all: num_cases.
Qed.

(** X5.  Missing [start] and [duration] fields count as [0]: the lookup
    returns what it returns on the sequence with every missing one filled
    in, provided the last event has a [start] of its own or the sequence
    has fewer than fifty events and [t] is not negative. *)
Theorem lookup_defaults_missing_fields (t : num) (vs : list event) :
  (forall v, last vs = Some v -> is_Some (v !! "start"))
  \/ ((length vs < 50)%nat /\ (t >=? zero)%num = true) ->
  getVisemeAtTime t (Some (fill_missing <$> vs)) = getVisemeAtTime t (Some vs).
Proof.
  intros [Hlast | [Hlen Ht]]; [apply fill_missing_agrees; exact Hlast|].
  destruct vs as [|a rest]; [reflexivity|].
  set (vs := a :: rest) in *.
  change (getVisemeAtTime t (Some (fill_missing <$> vs)))
    with (if (length (fill_missing <$> vs) <? 50)%nat
          then lookup_linear t (fill_missing <$> vs)
          else lookup_binary t (fill_missing <$> vs)).
  change (getVisemeAtTime t (Some vs))
    with (if (length vs <? 50)%nat then lookup_linear t vs else lookup_binary t vs).
  rewrite length_fmap.
  destruct (length vs <? 50)%nat eqn:E; [|apply Nat.ltb_ge in E; lia].
  unfold lookup_linear. rewrite fill_missing_linear.
  destruct (linear_loop t vs) eqn:Elin; try reflexivity.
  cbn [or_past_end]. unfold past_end. rewrite fmap_last.
  destruct (last vs) as [final|] eqn:El; [|reflexivity]. cbn [fmap option_fmap option_map].
  assert (Hnot : in_interval t final = false).
  { apply (linear_loop_missed t vs Elin).
    rewrite last_lookup in El. apply list_elem_of_lookup. eauto. }
  fold (lastEnd_of (fill_missing final)). fold (lastEnd_of final).
  rewrite (lastEnd_as_loop_end t final Hnot Ht).
  rewrite (lastEnd_as_loop_end t (fill_missing final)), fill_missing_loop_end,
    fill_missing_category; [reflexivity| |exact Ht].
  rewrite fill_missing_in_interval. exact Hnot.
Qed.

Lemma lookup_defaults_missing_fields_witness :
  getVisemeAtTime (Fin (1 # 2)) (Some (fill_missing <$> [missing_start]))
  = getVisemeAtTime (Fin (1 # 2)) (Some [missing_start]).
Proof.
  apply (lookup_defaults_missing_fields (Fin (1 # 2)) [missing_start]).
  right. split; [simpl; lia | reflexivity].
Defined.

(** With no gap between neighbours, a time within the speech lies in
    some interval. *)
Lemma gap_free_covers (t : num) (vs : list event) :
  gap_free vs = true -> within_speech t vs = true ->
  existsb (in_interval t) vs = true.
Proof.
  unfold within_speech.
  induction vs as [|a rest IH]; [discriminate|].
  intros Hgf Hin.
  destruct rest as [|b rest'].
  - simpl in *. rewrite orb_false_r. exact Hin.
  - simpl head in Hin.
    change (last (a :: b :: rest')) with (last (b :: rest')) in Hin.
    simpl gap_free in Hgf. apply andb_prop in Hgf as [Hab Hgf].
    change (existsb (in_interval t) (a :: b :: rest'))
      with (in_interval t a || existsb (in_interval t) (b :: rest')).
    destruct (in_interval t a) eqn:Ea; [reflexivity|]. simpl orb.
    apply IH; [exact Hgf|]. simpl head.
    destruct (last (b :: rest')) as [final|]; [|discriminate].
    apply andb_prop in Hin as [Hge Hlt].
    apply andb_true_intro. split; [|exact Hlt].
    unfold in_interval in Ea. rewrite Hge in Ea. cbn [andb] in Ea.
    revert Hab Ea Hlt. generalize (loop_end a), (loop_start b), (loop_end final).
    clear. intros ea sb ef Hab Ea Hlt. unfold Num.ge.
    destruct t, ea, sb, ef; simpl in *; try discriminate; try reflexivity;
      try apply Qeq_bool_iff in Hab; num_bools; lra.
Qed.

(** X6.  A sequence without gaps, each event ending where the next one
    starts, has an interval for every time from the first start to the
    last end, and on fewer than fifty events the lookup returns the
    category of the first event that contains the time. *)
Theorem lookup_gap_free (t : num) (vs : list event) :
  gap_free vs = true ->
  within_speech t vs = true ->
  (length vs < 50)%nat ->
  exists i v, vs !! i = Some v
    /\ in_interval t v = true
    /\ (forall j w, vs !! j = Some w -> in_interval t w = true -> (i <= j)%nat)
    /\ getVisemeAtTime t (Some vs) = Found (category v).
Proof.
  intros Hgf Hin Hlen.
  pose proof (gap_free_covers t vs Hgf Hin) as Hex.
  destruct (containers t vs) as [|i l] eqn:Ec.
  { apply containers_nil in Ec. congruence. }
  assert (Hi : i ∈ containers t vs) by (rewrite Ec; left).
  apply containers_spec in Hi as (v & Hv & Hinv).
  exists i, v. split; [exact Hv|]. split; [exact Hinv|]. split.
  - intros j w Hj Hw.
    assert (Hjc : j ∈ containers t vs) by (apply containers_spec; eauto).
    rewrite Ec in Hjc. clear - Hjc Ec.
    unfold containers in Ec.
    assert (Hsorted : forall k ks t vs, containers_from k t vs = ks ->
              forall x, x ∈ ks -> (k <= x)%nat).
    { clear. intros k ks t vs <- x Hx.
      apply containers_from_spec in Hx as (v & Hk & _). exact Hk. }
    apply elem_of_cons in Hjc as [-> | Hjl]; [lia|].
    (* the positions after the first container are containers of the rest *)
    revert Hjl Ec. generalize 0%nat as k. revert i l j.
    induction vs as [|a rest IH]; intros i l j k Hjl Ec; simpl in Ec; [discriminate|].
    destruct (in_interval t a).
    + injection Ec as <- <-. apply (Hsorted _ _ _ _ eq_refl) in Hjl. lia.
    + exact (IH i l j (S k) Hjl Ec).
  - destruct vs as [|a rest]; [discriminate|].
    unfold getVisemeAtTime.
    destruct (length (a :: rest) <? 50)%nat eqn:E; [|apply Nat.ltb_ge in E; lia].
    exact (lookup_linear_container t (a :: rest) i l v Ec Hv).
Qed.

Lemma lookup_gap_free_witness :
  exists i v, [mk_event 1 0 1; mk_event 5 1 1] !! i = Some v
    /\ in_interval (Fin (12 # 10)) v = true
    /\ (forall j w, [mk_event 1 0 1; mk_event 5 1 1] !! j = Some w ->
          in_interval (Fin (12 # 10)) w = true -> (i <= j)%nat)
    /\ getVisemeAtTime (Fin (12 # 10)) (Some [mk_event 1 0 1; mk_event 5 1 1])
       = Found (category v).
Proof.
  apply (lookup_gap_free (Fin (12 # 10)) [mk_event 1 0 1; mk_event 5 1 1]);
    [reflexivity | reflexivity | simpl; lia].
Defined.

(** * Further properties of the frame interpolator *)

Lemma num_eqb_refl_of_Z (z : Z) : (Num.of_Z z =? Num.of_Z z)%num = true.
Proof. rewrite of_Z_eqb. apply Z.eqb_refl. Qed.

(** X7.  Setting the target it already has leaves an interpolator as it
    is, so a client that sets the target on every tick does not restart
    the transition: the start time of the first call stands. *)
Theorem setTargetFrame_idempotent (frame t1 t2 : num) (this : FrameInterpolator) :
  (frame =? frame)%num = true ->
  setTargetFrame frame t2 (setTargetFrame frame t1 this) = setTargetFrame frame t1 this.
Proof.
  intros Hrefl. unfold setTargetFrame at 2 3.
  destruct (frame =? targetFrame this)%num eqn:E; simpl.
  - unfold setTargetFrame. rewrite E. reflexivity.
  - unfold setTargetFrame. simpl. rewrite Hrefl. reflexivity.
Qed.

Lemma setTargetFrame_idempotent_witness :
  setTargetFrame (Num.of_Z 3) (Fin 2)
    (setTargetFrame (Num.of_Z 3) (Fin 1) (new_FrameInterpolator default_transitionDuration))
  = setTargetFrame (Num.of_Z 3) (Fin 1) (new_FrameInterpolator default_transitionDuration).
Proof.
  apply (setTargetFrame_idempotent (Num.of_Z 3) (Fin 1) (Fin 2)). reflexivity.
Defined.

Section CallRuns.

Variables lo hi : Z.

Lemma interpolator_ok_later (now now' : Q) (this : FrameInterpolator) :
  (now <= now')%Q -> interpolator_ok lo hi now this -> interpolator_ok lo hi now' this.
Proof.
  intros Hle (c & g & d & Hc & Hg & Hd & Hpos & Hcb & Hgb & Ht).
  exists c, g, d. repeat split; try assumption; try lia.
  intros Htr. destruct (Ht Htr) as (t0 & Ht0 & Hle0). exists t0. split; [exact Ht0 | lra].
Qed.

Lemma setTargetFrame_ok (frame : Z) (t : Q) (this : FrameInterpolator) :
  lo <= frame <= hi ->
  interpolator_ok lo hi t this ->
  interpolator_ok lo hi t (setTargetFrame (Num.of_Z frame) (Fin t) this).
Proof.
  intros Hf (c & g & d & Hc & Hg & Hd & Hpos & Hcb & Hgb & Ht).
  unfold setTargetFrame. rewrite Hg, of_Z_eqb.
  destruct (frame =? g)%Z; simpl.
  - exists c, g, d. repeat split; try assumption; lia.
  - exists g, frame, d. simpl. repeat split; try assumption; try lia.
    intros _. exists t. split; [reflexivity | lra].
Qed.

Lemma reset_ok (now : Q) (this : FrameInterpolator) :
  interpolator_ok lo hi now this -> interpolator_ok lo hi now (reset this).
Proof.
  intros (c & g & d & Hc & Hg & Hd & Hpos & Hcb & Hgb & Ht).
  exists g, g, d. simpl. repeat split; try assumption; try lia; try discriminate.
Qed.

Lemma getInterpolatedFrame_ok (t : Q) (this : FrameInterpolator) :
  interpolator_ok lo hi t this ->
  (exists z, fst (getInterpolatedFrame (Fin t) this) = Num.of_Z z /\ lo <= z <= hi)
  /\ interpolator_ok lo hi t (snd (getInterpolatedFrame (Fin t) this)).
Proof.
  intros Hok. pose proof Hok as (c & g & d & Hc & Hg & Hd & Hpos & Hcb & Hgb & Ht).
  destruct (isTransitioning this) eqn:Etr.
  - destruct (Ht eq_refl) as (t0 & Ht0 & Hle).
    assert (Hthis : this = {| transitionDuration := Fin d; currentFrame := Num.of_Z c;
                              targetFrame := Num.of_Z g; transitionStartTime := Fin t0;
                              isTransitioning := true |}).
    { destruct this; simpl in *; congruence. }
    rewrite Hthis.
    destruct (Qlt_le_dec t (t0 + d)) as [Hlt | Hge].
    + destruct (frame_during c g d t0 Hpos t Hle Hlt) as (z & Hz & Hb & _).
      rewrite (getInterpolatedFrame_during c g d t0 Hpos t Hlt) in Hz |- *.
      split; [exists z; split; [exact Hz | lia]|].
      rewrite <- Hthis. exact Hok.
    + rewrite (getInterpolatedFrame_after c g d t0 Hpos t Hge). simpl.
      split; [exists g; auto|].
      exists g, g, d. simpl. repeat split; try assumption; try lia; try discriminate.
  - unfold getInterpolatedFrame. rewrite Etr. simpl.
    split; [exists g; auto | exact Hok].
Qed.

Lemma run_calls_ok (calls : list call) :
  forall (now : Q) (this : FrameInterpolator),
  interpolator_ok lo hi now this ->
  calls_in_order now calls ->
  targets_within lo hi calls ->
  Forall (fun frame => exists z, frame = Num.of_Z z /\ lo <= z <= hi)
         (fst (run_calls calls this)).
Proof.
  induction calls as [|[frame t | t |] rest IH]; intros now this Hok Hord Htg; simpl.
  - constructor.
  - destruct Hord as [Hle Hord]. destruct Htg as [Hf Htg].
    apply (IH t); [|exact Hord | exact Htg].
    apply setTargetFrame_ok; [exact Hf|].
    exact (interpolator_ok_later now t this Hle Hok).
  - destruct Hord as [Hle Hord].
    pose proof (interpolator_ok_later now t this Hle Hok) as Hok'.
    destruct (getInterpolatedFrame_ok t this Hok') as [Hframe Hnext].
    destruct (getInterpolatedFrame (Fin t) this) as [frame this'] eqn:E.
    simpl in Hframe, Hnext.
    pose proof (IH t this' Hnext Hord Htg) as Hrest.
    destruct (run_calls rest this') as [frames final]. simpl in *.
    constructor; assumption.
  - apply (IH now); [apply reset_ok; exact Hok | exact Hord | exact Htg].
Qed.

End CallRuns.

(** X8.  However a client interleaves [setTargetFrame],
    [getInterpolatedFrame] and [reset] on a new interpolator with a
    positive transition duration, as long as the times it passes never go
    back, every frame returned is an integer between the smallest and the
    largest frame in play: the initial frame [1] and the targets set. *)
Theorem interpolator_stays_within_targets
    (d start : Q) (lo hi : Z) (calls : list call) :
  (0 < d)%Q ->
  lo <= 1 <= hi ->
  calls_in_order start calls ->
  targets_within lo hi calls ->
  Forall (fun frame => exists z, frame = Num.of_Z z /\ lo <= z <= hi)
         (fst (run_calls calls (new_FrameInterpolator (Fin d)))).
Proof.
  intros Hd H1 Hord Htg.
  apply (run_calls_ok lo hi calls start); [|exact Hord | exact Htg].
  exists 1, 1, d. simpl. repeat split; try assumption; try lia; try discriminate.
Qed.

Lemma interpolator_stays_within_targets_witness :
  Forall (fun frame => exists z, frame = Num.of_Z z /\ 1 <= z <= 6)
    (fst (run_calls [SetTarget 4 1; GetFrame (102 # 100); SetTarget 6 (103 # 100);
                     GetFrame (104 # 100); Reset; GetFrame (104 # 100)]
            (new_FrameInterpolator (Fin (5 # 100))))).
Proof.
  apply (interpolator_stays_within_targets (5 # 100) 0 1 6).
  - reflexivity.
  - lia.
  - simpl. repeat split; vm_compute; discriminate.
  - simpl. repeat split; lia.
Defined.

Lemma frames_at_idle (times : list num) (this : FrameInterpolator) :
  isTransitioning this = false ->
  frames_at times this = map (fun _ => targetFrame this) times.
Proof.
  intros Hidle. induction times as [|t rest IH]; simpl; [reflexivity|].
  unfold getInterpolatedFrame. rewrite Hidle. simpl. f_equal. exact IH.
Qed.

(** X9.  After [reset] the interpolator shows its target at once: every
    later call returns [targetFrame], whatever the times passed and
    whatever transition was cut short, and a second [reset] changes
    nothing. *)
Theorem reset_shows_target (this : FrameInterpolator) (times : list num) :
  frames_at times (reset this) = map (fun _ => targetFrame this) times
  /\ reset (reset this) = reset this.
Proof.
  split; [|reflexivity].
  rewrite (frames_at_idle times (reset this) eq_refl). reflexivity.
Qed.

(** * Further properties of the rescaling *)

(** ** The arrays [scaleVisemes] builds, read through the store *)

Lemma deref_weaken (h h' : store) (array : list loc) (vs : list event) :
  h ⊆ h' -> deref h array = Some vs -> deref h' array = Some vs.
Proof.
  intros Hsub Hd. unfold deref in *. apply mapM_Some in Hd. apply mapM_Some.
  eapply Forall2_impl; [exact Hd|]. intros l v Hl.
  exact (lookup_weaken h h' l v Hl Hsub).
Qed.

Lemma deref_is_Some (h : store) (array : list loc) (vs : list event) :
  deref h array = Some vs -> Forall (fun l => is_Some (h !! l)) array.
Proof.
  intros Hd. unfold deref in Hd. apply mapM_Some in Hd.
  induction Hd; constructor; eauto.
Qed.

Lemma deref_pairs (f : event -> event) (h h' : store) (array ls : list loc)
    (vs : list event) :
  deref h array = Some vs ->
  Forall2 (fun l l' => (l' ∉ dom h)
             /\ exists v, h !! l = Some v /\ h' !! l' = Some (f v)) array ls ->
  deref h' ls = Some (f <$> vs).
Proof.
  intros Hd Hpairs. unfold deref in *. apply mapM_Some in Hd. apply mapM_Some.
  revert vs Hd. induction Hpairs as [|l l' array ls (_ & v & Hv & Hv') _ IH];
    intros vs Hd; inversion Hd; subst; simpl; constructor.
  - congruence.
  - apply IH. assumption.
Qed.

(** [scaleVisemes] with both durations positive, on arrays read through
    the store. *)
Lemma scaleVisemes_deref (actualDuration : num) (h : store) (c : lipsync)
    (vs : list event) :
  (estimatedDuration c >? zero)%num = true ->
  (actualDuration >? zero)%num = true ->
  deref h (visemeData c) = Some vs ->
  exists h' c', scaleVisemes actualDuration h c = Some (h', c')
    /\ h ⊆ h'
    /\ visemeData c' = visemeData c
    /\ estimatedDuration c' = estimatedDuration c
    /\ durationScale c' = (actualDuration / estimatedDuration c)%num
    /\ deref h' (visemeData c') = Some vs
    /\ deref h' (scaledVisemes c')
       = Some (scale_event (actualDuration / estimatedDuration c)%num <$> vs).
Proof.
  intros He Ha Hd.
  destruct (scaleVisemes_scaled actualDuration h c He Ha (deref_is_Some h _ vs Hd))
    as (ls & h' & Hrun & Hsub & Hpairs).
  eexists h', _. split; [exact Hrun|]. simpl. repeat split; auto.
  - eapply deref_weaken; eauto.
  - eapply deref_pairs; eauto.
Qed.

(** [scaleVisemes] in every case keeps the original array and the
    estimate. *)
Lemma scaleVisemes_keeps (actualDuration : num) (h : store) (c : lipsync)
    (vs : list event) :
  deref h (visemeData c) = Some vs ->
  exists h' c', scaleVisemes actualDuration h c = Some (h', c')
    /\ h ⊆ h'
    /\ visemeData c' = visemeData c
    /\ estimatedDuration c' = estimatedDuration c
    /\ deref h' (visemeData c') = Some vs.
Proof.
  intros Hd.
  destruct ((estimatedDuration c >? zero)%num && (actualDuration >? zero)%num) eqn:Epos.
  - apply andb_prop in Epos as [He Ha].
    destruct (scaleVisemes_deref actualDuration h c vs He Ha Hd)
      as (h' & c' & Hrun & Hsub & Hvd & Hest & _ & Hdv & _).
    exists h', c'. auto.
  - rewrite (scaleVisemes_identity actualDuration h c Epos).
    eexists h, _. split; [reflexivity|]. simpl. auto.
Qed.

(** X11.  Rescaling does not compound.  Whatever duration an earlier call
    of [scaleVisemes] was given, a later call with a positive duration
    builds its events from the original sequence: they are the original
    events scaled by the later duration over the first estimate, and the
    original sequence is still in place. *)
Theorem scaleVisemes_does_not_compound
    (earlier later : num) (h : store) (c : lipsync) (vs : list event) :
  (estimatedDuration c >? zero)%num = true ->
  (later >? zero)%num = true ->
  deref h (visemeData c) = Some vs ->
  exists h1 c1 h2 c2,
    scaleVisemes earlier h c = Some (h1, c1)
    /\ scaleVisemes later h1 c1 = Some (h2, c2)
    /\ deref h2 (scaledVisemes c2)
       = Some (scale_event (later / estimatedDuration c)%num <$> vs)
    /\ deref h2 (visemeData c2) = Some vs
    /\ durationScale c2 = (later / estimatedDuration c)%num.
Proof.
  intros He Hl Hd.
  destruct (scaleVisemes_keeps earlier h c vs Hd)
    as (h1 & c1 & Hrun1 & _ & Hvd1 & Hest1 & Hd1).
  rewrite <- Hest1 in He.
  destruct (scaleVisemes_deref later h1 c1 vs He Hl Hd1)
    as (h2 & c2 & Hrun2 & _ & _ & _ & Hscale & Hd2 & Hs2).
  exists h1, c1, h2, c2. rewrite <- Hest1. auto.
Qed.

Lemma scaleVisemes_does_not_compound_witness :
  exists h1 c1 h2 c2,
    scaleVisemes (Fin 3) scenario_store scenario_lipsync = Some (h1, c1)
    /\ scaleVisemes (Fin 2) h1 c1 = Some (h2, c2)
    /\ deref h2 (scaledVisemes c2)
       = Some (scale_event (Fin 2 / estimatedDuration scenario_lipsync)%num
                 <$> [mk_event 1 0 (1 # 2); mk_event 5 (1 # 2) (1 # 2)])
    /\ deref h2 (visemeData c2) = Some [mk_event 1 0 (1 # 2); mk_event 5 (1 # 2) (1 # 2)]
    /\ durationScale c2 = (Fin 2 / estimatedDuration scenario_lipsync)%num.
Proof.
  apply (scaleVisemes_does_not_compound (Fin 3) (Fin 2) scenario_store scenario_lipsync).
  - reflexivity.
  - reflexivity.
  - reflexivity.
Defined.

(** ** The rescaling step of a tick *)

Lemma ticks_app (pre post : list num) :
  forall (h : store) (c : lipsync),
  ticks (pre ++ post) h c =
    match ticks pre h c with
    | Some (h', c') => ticks post h' c'
    | None => None
    end.
Proof.
  induction pre as [|d pre IH]; intros h c; simpl; [reflexivity|].
  destruct (rescale_on_tick d h c) as [[h' c']|]; [apply IH | reflexivity].
Qed.

Lemma ticks_waiting (pre : list num) (h : store) (c : lipsync) :
  Forall (fun d => (d >? zero)%num = false) pre -> ticks pre h c = Some (h, c).
Proof.
  induction 1 as [|d pre Hd _ IH]; simpl; [reflexivity|].
  unfold rescale_on_tick. rewrite Hd. simpl. exact IH.
Qed.

Lemma ticks_settled (post : list num) (h : store) (c : lipsync) :
  (durationScale c =? one)%num = false -> ticks post h c = Some (h, c).
Proof.
  intros Hs. induction post as [|d post IH]; simpl; [reflexivity|].
  unfold rescale_on_tick. rewrite Hs, andb_false_r. simpl. exact IH.
Qed.

(** The durations read by [startAnimation] and the ticks up to and
    including the first positive one. *)
Lemma rescales_first (pre : list num) (d : num) (h : store) (array : list loc)
    (vs : list event) :
  deref h array = Some vs ->
  (estimate_duration h array >? zero)%num = true ->
  Forall (fun x => (x >? zero)%num = false) pre ->
  (d >? zero)%num = true ->
  exists h' c',
    rescales (pre ++ [d]) h (init_lipsync h array) = Some (h', c')
    /\ durationScale c' = (d / estimate_duration h array)%num
    /\ deref h' (scaledVisemes c')
       = Some (scale_event (d / estimate_duration h array)%num <$> vs)
    /\ deref h' array = Some vs.
Proof.
  intros Hd He Hpre Hpos.
  destruct (scaleVisemes_deref d h (init_lipsync h array) vs He Hpos Hd)
    as (h' & c' & Hrun & _ & Hvd & _ & Hscale & Hdv & Hds).
  simpl in Hscale, Hds, Hvd. rewrite Hvd in Hdv.
  exists h', c'. split; [|auto].
  destruct pre as [|p pre]; simpl.
  - unfold startAnimation_rescale. rewrite Hpos, Hrun. reflexivity.
  - inversion Hpre as [|? ? Hp Hrest]; subst.
    unfold startAnimation_rescale. rewrite Hp.
    rewrite ticks_app, (ticks_waiting pre h _ Hrest). simpl.
    unfold rescale_on_tick. simpl durationScale. simpl estimatedDuration.
    rewrite Hpos, He. simpl. rewrite Hrun. reflexivity.
Qed.

Lemma rescales_app (pre post : list num) (h : store) (c : lipsync) :
  pre <> [] ->
  rescales (pre ++ post) h c =
    match rescales pre h c with
    | Some (h', c') => ticks post h' c'
    | None => None
    end.
Proof.
  destruct pre as [|p pre]; [congruence|]. intros _. simpl.
  destruct (startAnimation_rescale p h c) as [[h' c']|]; [|reflexivity].
  apply ticks_app.
Qed.

(** X12.  The first positive duration read off the audio element fixes
    the scale.  [startAnimation] reads the first duration and every tick
    after it the next one; reads that give no positive duration yet (the
    [NaN] of an element without metadata, or [0]) leave the sequence
    alone; the first read of a positive duration [d] rescales the original
    events by [d / estimatedDuration]; and when that factor is not [1], no
    later tick rescales again, whatever durations it reads. *)
Theorem first_duration_fixes_scale
    (pre post : list num) (d : num) (h : store) (array : list loc) (vs : list event) :
  deref h array = Some vs ->
  (estimate_duration h array >? zero)%num = true ->
  Forall (fun x => (x >? zero)%num = false) pre ->
  (d >? zero)%num = true ->
  (d / estimate_duration h array =? one)%num = false ->
  rescales pre h (init_lipsync h array) = Some (h, init_lipsync h array)
  /\ exists h' c',
       rescales (pre ++ d :: post) h (init_lipsync h array) = Some (h', c')
       /\ rescales (pre ++ [d]) h (init_lipsync h array) = Some (h', c')
       /\ durationScale c' = (d / estimate_duration h array)%num
       /\ deref h' (scaledVisemes c')
          = Some (scale_event (d / estimate_duration h array)%num <$> vs)
       /\ deref h' array = Some vs.
Proof.
  intros Hd He Hpre Hpos Hne. split.
  - destruct pre as [|p pre]; [reflexivity|].
    inversion Hpre as [|? ? Hp Hrest]; subst. simpl.
    unfold startAnimation_rescale. rewrite Hp. apply ticks_waiting. exact Hrest.
  - destruct (rescales_first pre d h array vs Hd He Hpre Hpos)
      as (h' & c' & Hrun & Hscale & Hds & Hdv).
    exists h', c'. split; [|auto].
    change (d :: post) with ([d] ++ post). rewrite app_assoc.
    rewrite rescales_app by (destruct pre; discriminate).
    rewrite Hrun. apply ticks_settled. rewrite Hscale. exact Hne.
Qed.

Lemma first_duration_fixes_scale_witness :
  rescales [NaN; zero] scenario_store scenario_lipsync
    = Some (scenario_store, scenario_lipsync)
  /\ exists h' c',
       rescales ([NaN; zero] ++ Fin 2 :: [Fin 3; Fin 1]) scenario_store scenario_lipsync
         = Some (h', c')
       /\ rescales ([NaN; zero] ++ [Fin 2]) scenario_store scenario_lipsync = Some (h', c')
       /\ durationScale c' = (Fin 2 / estimate_duration scenario_store [0%nat; 1%nat])%num
       /\ deref h' (scaledVisemes c')
          = Some (scale_event (Fin 2 / estimate_duration scenario_store [0%nat; 1%nat])%num
                    <$> [mk_event 1 0 (1 # 2); mk_event 5 (1 # 2) (1 # 2)])
       /\ deref h' [0%nat; 1%nat] = Some [mk_event 1 0 (1 # 2); mk_event 5 (1 # 2) (1 # 2)].
Proof.
  apply (first_duration_fixes_scale [NaN; zero] [Fin 3; Fin 1] (Fin 2) scenario_store
           [0%nat; 1%nat]).
  - reflexivity.
  - reflexivity.
  - repeat constructor.
  - reflexivity.
  - reflexivity.
Defined.

(** * Further properties of [getFrameForViseme] *)

Lemma find_visemeData_some (t : num) (idx : Z) (vs : list event) (v : event) :
  find_visemeData t idx vs = Some v ->
  v ∈ vs /\ in_interval t v = true /\ viseme_is v idx = true.
Proof.
  unfold find_visemeData. intros Hf. apply find_some in Hf as [Hv Hp].
  unfold find_pred in Hp. apply andb_prop in Hp as [Hin Hvis].
  split; [apply list_elem_of_In; exact Hv | auto].
Qed.

(** The index the cycle computes at a finite time since the start of the
    event. *)
Lemma cycle_index_floor (x : Q) (n : nat) :
  (0 <= x)%Q -> (0 < n)%nat ->
  cycle_index (Fin x) n = Some (Z.to_nat (Qfloor x) mod n)%nat.
Proof.
  intros Hx Hn. unfold cycle_index. simpl Num.floor. unfold Num.of_Z.
  rewrite Qfloor_Z.
  assert (H0 : 0 <= Qfloor x).
  { change 0 with (Qfloor (inject_Z 0)) at 1. apply Qfloor_resp_le. exact Hx. }
  rewrite Z.rem_mod_nonneg by lia.
  pose proof (Z.mod_pos_bound (Qfloor x) (Z.of_nat n) ltac:(lia)) as Hb.
  destruct (Z.ltb_spec (Qfloor x mod Z.of_nat n) 0) as [Hneg | _]; [lia|].
  f_equal. apply Nat2Z.inj. rewrite Nat2Z.inj_mod, !Z2Nat.id by lia. reflexivity.
Qed.

(** The frame [getFrameForViseme] returns inside an event found with a
    finite start and a truthy duration. *)
Lemma getFrameForViseme_cycle
    (idx : Z) (vs : list event) (t s : Q) (m : gmap Z (list Z)) (v : event) :
  find_visemeData (Fin t) idx vs = Some v ->
  Num.truthy (Num.to_num (v !! "duration")) = true ->
  loop_start v = Fin s ->
  candidateFrames idx m <> [] ->
  (s <= t)%Q
  /\ getFrameForViseme idx vs (Fin t) m
     = candidateFrames idx m
         !! (Z.to_nat (Qfloor ((t + - s) * inject_Z 8)) mod length (candidateFrames idx m))%nat.
Proof.
  intros Hf Hdur Hs Hne.
  destruct (find_visemeData_some _ _ _ _ Hf) as (_ & Hin & _).
  assert (Hle : (s <= t)%Q).
  { unfold in_interval in Hin. apply andb_prop in Hin as [Hge _].
    rewrite Hs in Hge. unfold Num.ge in Hge. simpl in Hge.
    apply Qle_bool_iff in Hge. exact Hge. }
  split; [exact Hle|].
  unfold getFrameForViseme. rewrite Hf, Hdur.
  destruct (candidateFrames idx m) as [|f fs] eqn:Ec; [congruence|].
  cbn [length Nat.eqb].
  unfold loop_start in Hs. rewrite Hs.
  change ((Fin t - Fin s) * Num.of_Z 8)%num with (Fin ((t + - s) * inject_Z 8)).
  rewrite cycle_index_floor; [reflexivity | | simpl; lia].
  assert (H8 : (inject_Z 8 == 8)%Q) by reflexivity.
  rewrite H8. lra.
Qed.

(** X14.  At a finite time [t], on a sequence none of whose events
    starts at [-Infinity], with [t] and the starts no larger in magnitude
    than [time_bound] (so that the product [timeInViseme * cycleRate]
    stays finite in the numbers of the source as well),
    [getFrameForViseme] returns a frame, never [undefined], and the frame
    is one of the candidate frames of the viseme; or the default frame
    [1] when the candidate list is empty. *)
Theorem getFrameForViseme_returns_candidate
    (idx : Z) (vs : list event) (t : Q) (m : gmap Z (list Z)) :
  (t <= time_bound)%Q ->
  Forall (fun v => (Fin (- time_bound) <=? loop_start v)%num = true) vs ->
  exists frame, getFrameForViseme idx vs (Fin t) m = Some frame
    /\ (frame ∈ candidateFrames idx m \/ (candidateFrames idx m = [] /\ frame = 1)).
Proof.
  intros Ht Hstarts.
  destruct (candidateFrames idx m) as [|f fs] eqn:Ec.
  { exists 1. unfold getFrameForViseme. rewrite Ec. simpl. auto. }
  assert (Hne : candidateFrames idx m <> []) by congruence.
  destruct (find_visemeData (Fin t) idx vs) as [v|] eqn:Ef.
  2: { unfold getFrameForViseme. rewrite Ef, Ec. simpl.
       exists f. split; [reflexivity | left; left]. }
  destruct (Num.truthy (Num.to_num (v !! "duration"))) eqn:Edur.
  2: { unfold getFrameForViseme. rewrite Ef, Ec, Edur. simpl.
       exists f. split; [reflexivity | left; left]. }
  destruct (find_visemeData_some _ _ _ _ Ef) as (Hv & Hin & _).
  rewrite Forall_forall in Hstarts. specialize (Hstarts v Hv).
  assert (Hs : exists s, loop_start v = Fin s).
  { unfold in_interval in Hin. apply andb_prop in Hin as [Hge _].
    unfold Num.ge in Hge.
    destruct (loop_start v) as [s| | |]; simpl in Hge, Hstarts; try discriminate.
    eauto. }
  destruct Hs as [s Hs].
  destruct (getFrameForViseme_cycle idx vs t s m v Ef Edur Hs Hne) as [_ Hrun].
  rewrite Hrun, Ec.
  set (i := (Z.to_nat (Qfloor ((t + - s) * inject_Z 8)) mod length (f :: fs))%nat).
  assert (Hi : (i < length (f :: fs))%nat).
  { subst i. apply Nat.mod_upper_bound. simpl. lia. }
  destruct (lookup_lt_is_Some_2 (f :: fs) i Hi) as [frame Hframe].
  exists frame. split; [exact Hframe|]. left.
  eapply list_elem_of_lookup_2. exact Hframe.
Qed.

Lemma getFrameForViseme_returns_candidate_witness :
  exists frame,
    getFrameForViseme 5 two_events (Fin (14 # 10)) three_frames = Some frame
    /\ (frame ∈ candidateFrames 5 three_frames
        \/ (candidateFrames 5 three_frames = [] /\ frame = 1)).
Proof.
  apply (getFrameForViseme_returns_candidate 5 two_events (14 # 10)).
  - vm_compute. discriminate.
  - repeat constructor.
Defined.

Lemma find_first_container (t : num) (idx : Z) (i : nat) (l : list nat) (v : event)
    (vs : list event) :
  forall k,
  containers_from k t vs = i :: l ->
  vs !! (i - k)%nat = Some v ->
  viseme_is v idx = true ->
  find_visemeData t idx vs = Some v.
Proof.
  unfold find_visemeData.
  induction vs as [|a rest IH]; intros k Hc Hv Hvis; simpl in *; [discriminate|].
  unfold find_pred at 1.
  destruct (in_interval t a) eqn:Ein.
  - injection Hc as <- _. rewrite Nat.sub_diag in Hv. simpl in Hv.
    injection Hv as ->. rewrite Hvis. reflexivity.
  - cbn [andb]. apply (IH (S k)); [exact Hc | | exact Hvis].
    assert (Hi : i ∈ containers_from (S k) t rest) by (rewrite Hc; left).
    apply containers_from_spec in Hi as (w & Hk & _).
    replace (i - k)%nat with (S (i - S k)) in Hv by lia. exact Hv.
Qed.

(** X16.  On a sequence of fewer than fifty events the two exported
    functions agree on the current event whenever the first event whose
    interval contains the time carries the viseme [idx] in its [viseme]
    field: [getVisemeAtTime] returns that viseme, and
    [getFrameForViseme], called with it, finds that same event and
    returns the frame it returns on that event alone.  (An event without
    a [viseme] field is looked up as [0], but [find] compares with [===]
    and passes it over.) *)
Theorem lookup_and_frame_agree
    (t : num) (idx : Z) (vs : list event) (i : nat) (l : list nat) (v : event)
    (m : gmap Z (list Z)) :
  (length vs < 50)%nat ->
  containers t vs = i :: l ->
  vs !! i = Some v ->
  v !! "viseme" = Some (Num.of_Z idx) ->
  getVisemeAtTime t (Some vs) = Found (category v)
  /\ (category v =? Num.of_Z idx)%num = true
  /\ find_visemeData t idx vs = Some v
  /\ getFrameForViseme idx vs t m = getFrameForViseme idx [v] t m.
Proof.
  intros Hlen Hc Hv Hvis.
  assert (Hcat : (category v =? Num.of_Z idx)%num = true).
  { unfold category. rewrite Hvis. unfold Num.or_else.
    destruct (Num.truthy (Num.of_Z idx)) eqn:E; [apply num_eqb_refl_of_Z|].
    unfold Num.of_Z in *. simpl in *. apply negb_false_iff in E.
    rewrite Qeq_bool_iff in *. symmetry. exact E. }
  assert (His : viseme_is v idx = true).
  { unfold viseme_is. rewrite Hvis. apply num_eqb_refl_of_Z. }
  assert (Hfind : find_visemeData t idx vs = Some v).
  { apply (find_first_container t idx i l v vs 0%nat Hc); [|exact His].
    rewrite Nat.sub_0_r. exact Hv. }
  split; [|split; [exact Hcat|split; [exact Hfind|]]].
  - destruct vs as [|a rest]; [discriminate|].
    unfold getVisemeAtTime.
    apply Nat.ltb_lt in Hlen. rewrite Hlen.
    exact (lookup_linear_container t (a :: rest) i l v Hc Hv).
  - assert (Hone : find_visemeData t idx [v] = Some v).
    { unfold find_visemeData. simpl. unfold find_pred.
      rewrite (container_in_interval t vs i l v Hc Hv), His. reflexivity. }
    unfold getFrameForViseme. rewrite Hfind, Hone. reflexivity.
Qed.

Lemma lookup_and_frame_agree_witness :
  getVisemeAtTime (Fin (14 # 10)) (Some two_events) = Found (category (mk_event 5 1 1))
  /\ (category (mk_event 5 1 1) =? Num.of_Z 5)%num = true
  /\ find_visemeData (Fin (14 # 10)) 5 two_events = Some (mk_event 5 1 1)
  /\ getFrameForViseme 5 two_events (Fin (14 # 10)) three_frames
     = getFrameForViseme 5 [mk_event 5 1 1] (Fin (14 # 10)) three_frames.
Proof.
  apply (lookup_and_frame_agree (Fin (14 # 10)) 5 two_events 1%nat [] (mk_event 5 1 1)).
  - simpl. lia.
  - reflexivity.
  - reflexivity.
  - reflexivity.
Defined.

(** * Further properties of the playback session *)

Lemma stop_playback_dom (s : session) :
  dom (audios (stop_playback s)) = dom (audios s).
Proof.
  rewrite stop_playback_audios. destruct (audioRef s); [|reflexivity].
  apply dom_alter_L.
Qed.

(** The effect on a request with audio while the guard is clear. *)
Lemma speechEffect_accepts (request : speech) (s : session) :
  isPlayingRef s = false ->
  falsy_string (audioData request) = false ->
  let a := fresh (dom (audios s)) in
  snd (speechEffect (Some request) s) = true
  /\ audioRef (fst (speechEffect (Some request) s)) = Some a
  /\ audios s !! a = None
  /\ audios (fst (speechEffect (Some request) s)) !! a
     = Some (new_Audio ("data:audio/mp3;base64," ++ default "" (audioData request))).
Proof.
  intros Hguard Haudio a. unfold speechEffect. rewrite Hguard, Haudio.
  cbn [fst snd audioRef audios]. rewrite stop_playback_dom. fold a.
  repeat split.
  - apply not_elem_of_dom. apply is_fresh.
  - apply lookup_insert_eq.
Qed.

Lemma ends_playback_clears (act : action) (s : session) :
  ends_playback act s = true ->
  isPlayingRef (run act s) = false /\ isSpeaking (run act s) = false.
Proof.
  destruct act as [sp| |a|a|a dur|a|a|a|a t| |scaled lastVisemeIndex];
    simpl; try discriminate; auto.
  unfold animate.
  destruct (audioRef s) as [a|]; [|discriminate].
  destruct (audios s !! a) as [au|]; [|discriminate].
  unfold playing. intros Hstop. apply negb_true_iff in Hstop. rewrite Hstop.
  simpl. auto.
Qed.

(** X17.  Every way a playback ends reopens the guard.  After the
    cleanup, an [ended] or [error] event, a rejected [play()], or a tick
    that finds the current element paused or at its end, [isPlayingRef]
    and the speaking state are clear, and the effect accepts the next
    request that carries audio: it returns its cleanup and puts a new
    element, one that did not exist before, into [audioRef] with the
    request's audio as its source. *)
Theorem playback_end_reopens_guard (act : action) (s : session) (request : speech) :
  ends_playback act s = true ->
  falsy_string (audioData request) = false ->
  isPlayingRef (run act s) = false
  /\ isSpeaking (run act s) = false
  /\ snd (speechEffect (Some request) (run act s)) = true
  /\ exists a,
       audioRef (fst (speechEffect (Some request) (run act s))) = Some a
       /\ audios (run act s) !! a = None
       /\ audios (fst (speechEffect (Some request) (run act s))) !! a
          = Some (new_Audio ("data:audio/mp3;base64," ++ default "" (audioData request))).
Proof.
  intros Hend Haudio.
  destruct (ends_playback_clears act s Hend) as [Hguard Hspeak].
  destruct (speechEffect_accepts request (run act s) Hguard Haudio)
    as (Hsnd & Href & Hnew & Hsrc).
  split; [exact Hguard|]. split; [exact Hspeak|]. split; [exact Hsnd|].
  exists (fresh (dom (audios (run act s)))). auto.
Qed.

Lemma playback_end_reopens_guard_witness :
  isPlayingRef (run (OnEnded 0%nat) playing_session) = false
  /\ isSpeaking (run (OnEnded 0%nat) playing_session) = false
  /\ snd (speechEffect (Some sample_speech) (run (OnEnded 0%nat) playing_session)) = true
  /\ exists a,
       audioRef (fst (speechEffect (Some sample_speech) (run (OnEnded 0%nat) playing_session)))
         = Some a
       /\ audios (run (OnEnded 0%nat) playing_session) !! a = None
       /\ audios (fst (speechEffect (Some sample_speech)
                         (run (OnEnded 0%nat) playing_session))) !! a
          = Some (new_Audio ("data:audio/mp3;base64,"
                             ++ default "" (audioData sample_speech))).
Proof.
  apply (playback_end_reopens_guard (OnEnded 0%nat) playing_session sample_speech).
  - reflexivity.
  - reflexivity.
Defined.

(** X18.  Running the cleanup twice is running it once.  It unloads the
    current element and resets the published viseme, the audio time and
    duration and the speaking state, but it does not touch [progress]:
    the progress of an interrupted playback stays as the last tick left
    it. *)
Theorem cleanup_idempotent (s : session) :
  cleanup (cleanup s) = cleanup s
  /\ progress (cleanup s) = progress s
  /\ (forall a au, audioRef s = Some a -> audios s !! a = Some au ->
        audios (cleanup s) !! a = Some (unload au)).
Proof.
  destruct (cleanup_refs s) as (Hflag & Href & Hanim & Haud).
  split; [|split].
  - unfold cleanup at 1. rewrite (stop_playback_idle (cleanup s) Href Hanim).
    unfold cleanup. cbn [audioRef animationRef progress audios nextFrameRequest].
    reflexivity.
  - unfold cleanup, stop_playback. cbn [progress].
    destruct (audioRef s); simpl; destruct (animationRef s); reflexivity.
  - intros a au Ha Hau. rewrite Haud, stop_playback_audios, Ha.
    rewrite lookup_alter_eq, Hau. reflexivity.
Qed.

(** X19.  A tick on a playing element whose clock [t] and duration [d]
    are finite with [0 <= t <= d] and [0 < d] publishes the clock, the
    duration and a progress between 0 and 100, requests the next frame
    and leaves the guard as it is. *)
Theorem tick_progress_is_a_percentage
    (scaled : list event) (lastVisemeIndex : num) (s : session)
    (a : loc) (au : audio) (t d : Q) :
  audioRef s = Some a ->
  audios s !! a = Some au ->
  playing au = true ->
  currentTime au = Fin t ->
  duration au = Fin d ->
  (0 <= t)%Q -> (t <= d)%Q -> (0 < d)%Q ->
  exists p,
    progress (animate scaled lastVisemeIndex s) = Fin p
    /\ (0 <= p)%Q /\ (p <= 100)%Q
    /\ audioTime (animate scaled lastVisemeIndex s) = Fin t
    /\ audioDuration (animate scaled lastVisemeIndex s) = Fin d
    /\ animationRef (animate scaled lastVisemeIndex s) = Some (nextFrameRequest s)
    /\ isPlayingRef (animate scaled lastVisemeIndex s) = isPlayingRef s.
Proof.
  intros Href Hau Hplay Ht Hd H0 Htd Hpos.
  unfold animate. rewrite Href, Hau. unfold playing in Hplay. rewrite Hplay.
  cbn [request_frame progress audioTime audioDuration animationRef isPlayingRef
       nextFrameRequest].
  rewrite Ht, Hd.
  assert (Hdiv : (Fin t / Fin d)%num = Fin (t / d)).
  { simpl. destruct (Qeq_bool d 0) eqn:E; [|reflexivity].
    apply Qeq_bool_iff in E. lra. }
  rewrite Hdiv.
  exists (t / d * inject_Z 100)%Q. split; [reflexivity|].
  assert (H100 : (inject_Z 100 == 100)%Q) by reflexivity.
  assert (Hlo : (0 <= t / d)%Q).
  { apply Qle_shift_div_l; lra. }
  assert (Hhi : (t / d <= 1)%Q).
  { apply Qle_shift_div_r; lra. }
  rewrite H100. repeat split; try reflexivity; lra.
Qed.

Lemma tick_progress_is_a_percentage_witness :
  exists p,
    progress (animate two_events zero midway_session) = Fin p
    /\ (0 <= p)%Q /\ (p <= 100)%Q
    /\ audioTime (animate two_events zero midway_session) = Fin 1
    /\ audioDuration (animate two_events zero midway_session) = Fin 2
    /\ animationRef (animate two_events zero midway_session)
       = Some (nextFrameRequest midway_session)
    /\ isPlayingRef (animate two_events zero midway_session) = isPlayingRef midway_session.
Proof.
  apply (tick_progress_is_a_percentage two_events zero midway_session 0%nat
           {| paused := false; ended := false; currentTime := Fin 1;
              duration := Fin 2; src := "data:audio/mp3;base64,AAAA" |} 1 2).
  - reflexivity.
  - vm_compute. reflexivity.
  - reflexivity.
  - reflexivity.
  - reflexivity.
  - discriminate.
  - discriminate.
  - reflexivity.
Defined.
